(** * Dynamically-typed dictionaries of the WAMP layer ([wamp/dict.go])

    A shallow embedding of [NormalizeDict], [DictChild], [DictValue],
    [DictFlag], the [Option*] accessors and [SetOption], together with the
    properties of their specification.

    Go maps are reference objects: a value of type [map[string]interface{}]
    is either nil or a pointer to a table that every holder of the pointer
    sees change.  The embedding therefore keeps the tables in a store and
    lets values hold locations, so that "the same object", "a fresh object"
    and "updated in place" can be said. *)

From Stdlib Require Import ZArith.
From stdpp Require Import base numbers option list gmap fin_maps strings.
From Stdlib Require Import SpecFloat.

Local Open Scope string_scope.
Local Open Scope list_scope.
Local Open Scope nat_scope.

(** ** Values *)

(** Locations of map objects in a store. *)
Abbreviation loc := nat.

(** The integer types of Go. *)
Inductive int_kind :=
| Int | Int8 | Int16 | Int32 | Int64
| Uint | Uint8 | Uint16 | Uint32 | Uint64.

(** What an [interface{}] can hold, as far as this file looks at it.

    [VDict d] is a value of exactly the type [map[string]interface{}]:
    [None] is the nil map, [Some l] a reference to the table at [l] of the
    store of dicts.  [VMap m] is a value of any other map type
    ([map[string]int], [map[interface{}]interface{}], a defined map type ...),
    nil or a reference into the store of those maps.  [VOther] stands for
    every remaining dynamic type (slices, structs, pointers, ...). *)
Inductive value :=
| VNil
| VBool (b : bool)
| VInteger (k : int_kind) (n : Z)
| VFloat32 (f : spec_float)
| VFloat64 (f : spec_float)
| VString (s : string)
| VDict (d : option loc)
| VMap (m : option loc)
| VOther (tag : N).

(** A variable of type [map[string]interface{}]: nil, or a reference. *)
Abbreviation dictref := (option loc).

(** Keys of a map that is not a [map[string]interface{}].  A concrete key
    is of kind String (the type [string] or a defined type over it, told
    apart by [tn]) or of some other kind. *)
Inductive ckey :=
| KStr (tn : string) (s : string)
| KOpaque (tn : string) (n : Z).

(** A key as [reflect.Value.MapKeys] hands it out: of the map's key type,
    which is a concrete type ([Plain]) or an interface type ([Boxed], holding
    a concrete key or nil). *)
Inductive mkey :=
| Plain (c : ckey)
| Boxed (c : option ckey).

(** The store of dicts: the tables of all [map[string]interface{}] objects,
    indexed by location.  Allocation appends. *)
Abbreviation heap := (list (gmap string value)).

(** The store of the other maps: the entries of each, in the order in which
    [MapKeys] reports them.  No function of this file writes to it. *)
Abbreviation fstore := (list (list (mkey * value))).

#[global] Instance int_kind_eq_dec : EqDecision int_kind.
Proof. solve_decision. Defined.
#[global] Instance spec_float_eq_dec : EqDecision spec_float.
Proof. solve_decision. Defined.
#[global] Instance value_eq_dec : EqDecision value.
Proof. solve_decision. Defined.
#[global] Instance ckey_eq_dec : EqDecision ckey.
Proof. solve_decision. Defined.
#[global] Instance mkey_eq_dec : EqDecision mkey.
Proof. solve_decision. Defined.

(** ** Outcomes of a call *)

(** A call returns a result and leaves a store, or panics, or needs a
    deeper recursion than the fuel it was given. *)
Inductive res (A : Type) :=
| Done (a : A) (h : heap)
| Panicked
| OutOfFuel.
Arguments Done {A} a h.
Arguments Panicked {A}.
Arguments OutOfFuel {A}.

(** Go's [error]: nil, or the message given to [errors.New]. *)
Definition error := option string.
Definition errors_New (msg : string) : error := Some msg.

(** ** Reading and writing the store *)

(** The table a location refers to.  Go only hands out references to maps
    that exist; at a location outside of the store the model reads an empty
    table, and [dict_set] writes nothing. *)
Definition deref (h : heap) (l : loc) : gmap string value :=
  default ∅ (h !! l).

(** [v, ok := dict[key]]: [None] is [ok = false].  Reading a nil map finds
    nothing. *)
Definition dict_get (h : heap) (dict : dictref) (key : string) : option value :=
  match dict with
  | None => None
  | Some l => deref h l !! key
  end.

(** [dict[key] = x] on a non-nil map: the table at [l] is updated in place. *)
Definition dict_set (h : heap) (l : loc) (key : string) (x : value) : heap :=
  <[l := <[key := x]> (deref h l)]> h.

(** [map[string]interface{}{}]: a new empty table at a new location. *)
Definition dict_new (h : heap) : loc * heap := (length h, h ++ [∅]).

(** ** reflect *)

(** [reflect.ValueOf(v).Kind() == reflect.Map] *)
Definition Kind_is_Map (v : value) : bool :=
  match v with
  | VDict _ | VMap _ => true
  | _ => false
  end.

(** The two steps [NormalizeDict] takes on a key: unwrap it when its kind is
    Interface ([key.Elem()], an invalid Value for a nil interface), then
    keep it only when its kind is String, as [key.String()]. *)
Definition key_Elem (k : mkey) : option ckey :=
  match k with
  | Plain c => Some c
  | Boxed c => c
  end.

Definition key_String (k : mkey) : option string :=
  match key_Elem k with
  | Some (KStr _ s) => Some s
  | _ => None
  end.

Section Normalizer.

(** Go does not specify the order in which the keys of a map are visited.
    [order] is the order a run happens to use on a table; all that is known
    of it is that it visits every entry once. *)
Variable order : list (string * value) → list (string * value).

(** The store of the maps that are not dicts. *)
Variable F : fstore.

(** [val.MapKeys()] paired with [val.MapIndex(key)]: the entries of a
    map-shaped value.  A nil map has none. *)
Definition MapEntries (h : heap) (v : value) : list (mkey * value) :=
  match v with
  | VDict (Some l) =>
      (λ kv, (Plain (KStr "string" kv.1), kv.2)) <$> order (map_to_list (deref h l))
  | VMap (Some l) => default [] (F !! l)
  | _ => []
  end.

(** The body of the loop of [NormalizeDict] over the remaining entries;
    [rec] is the recursive call and [dict] the map being filled. *)
Fixpoint NormalizeDict_loop (rec : value → heap → res dictref) (dict : loc)
    (es : list (mkey * value)) (h : heap) : res unit :=
  match es with
  | [] => Done () h
  | (key, cv) :: es' =>
      match key_String key with
      | None => NormalizeDict_loop rec dict es' h
      | Some s =>
          match rec cv h with
          | Done None h' =>
              NormalizeDict_loop rec dict es' (dict_set h' dict s cv)
          | Done (Some newVal) h' =>
              NormalizeDict_loop rec dict es' (dict_set h' dict s (VDict (Some newVal)))
          | Panicked => Panicked
          | OutOfFuel => OutOfFuel
          end
      end
  end.

Fixpoint NormalizeDict (fuel : nat) (v : value) (h : heap) : res dictref :=
  match fuel with
  | O => OutOfFuel
  | S n =>
      if negb (Kind_is_Map v) then Done None h
      else
        let '(dict, h1) := dict_new h in
        match NormalizeDict_loop (NormalizeDict n) dict (MapEntries h v) h1 with
        | Done _ h2 => Done (Some dict) h2
        | Panicked => Panicked
        | OutOfFuel => OutOfFuel
        end
  end.

End Normalizer.

(** ** Child and path resolution *)

Section Resolver.

Variable order : list (string * value) → list (string * value).
Variable F : fstore.

Definition DictChild (fuel : nat) (dict : dictref) (key : string) (h : heap)
    : res dictref :=
  match dict_get h dict key with
  | None => Done None h
  | Some VNil => Done None h
  | Some (VDict child) => Done child h
  | Some iface => NormalizeDict order F fuel iface h
  end.

(** [s[:hi]] and [s[i]] with Go's bounds checks; [None] is the run-time
    panic.  (A slice expression may reach up to the capacity; the paths here
    are taken to be no longer than they look.) *)
Definition slice_to {A} (s : list A) (hi : Z) : option (list A) :=
  if bool_decide (0 ≤ hi ≤ Z.of_nat (length s))%Z
  then Some (take (Z.to_nat hi) s) else None.

Definition index {A} (s : list A) (i : Z) : option A :=
  if bool_decide (0 ≤ i)%Z then s !! Z.to_nat i else None.

(** [strings.Join] *)
Definition strings_Join (elems : list string) (sep : string) : string :=
  String.concat sep elems.

(** The loop of [DictValue] over the indices [idx] still to visit.  [inl] is
    the early [return] from inside the loop, [inr] the dict the loop ends
    with. *)
Fixpoint DictValue_loop (fuel : nat) (path : list string) (idx : list nat)
    (dict : dictref) (h : heap) : res (value * error + dictref) :=
  match idx with
  | [] => Done (inr dict) h
  | i :: idx' =>
      match index path (Z.of_nat i) with
      | None => Panicked
      | Some seg =>
          match DictChild fuel dict seg h with
          | Done None h' =>
              match slice_to path (Z.of_nat i + 1) with
              | None => Panicked
              | Some pre =>
                  Done (inl (VNil, errors_New ("cannot find: " +:+ strings_Join pre "."))) h'
              end
          | Done (Some d) h' => DictValue_loop fuel path idx' (Some d) h'
          | Panicked => Panicked
          | OutOfFuel => OutOfFuel
          end
      end
  end.

Definition DictValue (fuel : nat) (dict : dictref) (path : list string) (h : heap)
    : res (value * error) :=
  match slice_to path (Z.of_nat (length path) - 1) with
  | None => Panicked
  | Some pre =>
      match DictValue_loop fuel path (seq 0 (length pre)) dict h with
      | Done (inl early) h' => Done early h'
      | Done (inr dict') h' =>
          match index path (Z.of_nat (length path) - 1) with
          | None => Panicked
          | Some last =>
              match dict_get h' dict' last with
              | None =>
                  Done (VNil, errors_New ("cannot find: " +:+ strings_Join path ".")) h'
              | Some v => Done (v, None) h'
              end
          end
      | Panicked => Panicked
      | OutOfFuel => OutOfFuel
      end
  end.

Definition DictFlag (fuel : nat) (dict : dictref) (path : list string) (h : heap)
    : res (bool * error) :=
  match DictValue fuel dict path h with
  | Done (v, Some err) h' => Done (false, Some err) h'
  | Done (v, None) h' =>
      match v with
      | VBool b => Done (b, None) h'
      | _ => Done (false, errors_New (strings_Join path "." +:+ " is not a boolean type")) h'
      end
  | Panicked => Panicked
  | OutOfFuel => OutOfFuel
  end.

End Resolver.

(** ** Options *)

(** Conversion of an integer to [int64]: the low 64 bits, read as signed. *)
Definition int64_of_Z (n : Z) : Z :=
  ((n + 2 ^ 63) mod 2 ^ 64 - 2 ^ 63)%Z.

(** The integer part of a floating-point number, when it has one. *)
Definition float_trunc (f : spec_float) : option Z :=
  match f with
  | S754_zero _ => Some 0%Z
  | S754_finite s m e =>
      let a := if (0 <=? e)%Z then (Z.pos m * 2 ^ e)%Z else (Z.pos m / 2 ^ (- e))%Z in
      Some (if s then (- a)%Z else a)
  | S754_infinity _ | S754_nan => None
  end.

Section Options.

(** Converting a float that has no integer part, or one outside of [int64],
    succeeds in Go with a result that depends on the platform. *)
Variable float_oob : spec_float → Z.

Definition int64_of_float (f : spec_float) : Z :=
  match float_trunc f with
  | Some z =>
      if bool_decide (- 2 ^ 63 ≤ z < 2 ^ 63)%Z then z else int64_of_Z (float_oob f)
  | None => int64_of_Z (float_oob f)
  end.

Definition OptionString (h : heap) (opts : dictref) (optionName : string) : string :=
  match dict_get h opts optionName with
  | Some VNil | None => ""
  | Some (VString opt) => opt
  | Some _ => ""
  end.

Definition OptionInt64 (h : heap) (opts : dictref) (optionName : string) : Z :=
  match dict_get h opts optionName with
  | Some VNil | None => 0%Z
  | Some (VInteger Int opt) => int64_of_Z opt
  | Some (VInteger Int32 opt) => int64_of_Z opt
  | Some (VFloat64 opt) => int64_of_float opt
  | Some (VInteger Uint opt) => int64_of_Z opt
  | Some (VInteger Uint32 opt) => int64_of_Z opt
  | Some (VInteger Uint64 opt) => int64_of_Z opt
  | Some _ => 0%Z
  end.

Definition OptionFlag (h : heap) (opts : dictref) (optionName : string) : bool :=
  match dict_get h opts optionName with
  | Some VNil | None => false
  | Some (VBool opt) => opt
  | Some _ => false
  end.

End Options.

Definition SetOption (dict : dictref) (name : string) (val : value) (h : heap)
    : res dictref :=
  let '(l, h1) := match dict with
                  | None => dict_new h
                  | Some l => (l, h)
                  end in
  Done (Some l) (dict_set h1 l name val).

(** ** Values of finite depth *)

(** [depth_le F h n v]: every map reachable from [v] exists, and maps are
    nested in [v] fewer than [n] deep.  A map that contains itself has no
    such [n]; on it the recursion of [NormalizeDict] does not end. *)
Fixpoint depth_le (F : fstore) (h : heap) (n : nat) (v : value) : bool :=
  match n with
  | O => false
  | S n' =>
      match v with
      | VDict (Some l) =>
          match h !! l with
          | Some m => forallb (λ kv, depth_le F h n' kv.2) (map_to_list m)
          | None => false
          end
      | VMap (Some l) =>
          match F !! l with
          | Some es => forallb (λ kv, depth_le F h n' kv.2) es
          | None => false
          end
      | _ => true
      end
  end.

(** ** Structural equality *)

(** Equality by content, in a store [h]: the same value, or two dicts with
    the same keys holding structurally equal values. *)
Inductive deep_eq (h : heap) : value → value → Prop :=
| deep_eq_refl v :
    (∀ l, v ≠ VDict (Some l)) → deep_eq h v v
| deep_eq_dict l1 l2 m1 m2 :
    h !! l1 = Some m1 →
    h !! l2 = Some m2 →
    dom m1 = dom m2 →
    (∀ k x1 x2, m1 !! k = Some x1 → m2 !! k = Some x2 → deep_eq h x1 x2) →
    deep_eq h (VDict (Some l1)) (VDict (Some l2)).

(** ** Walking a path *)

(** [resolves order F fuel dict segs h dict' h']: starting from [dict] in the
    store [h], [DictChild] finds a child for every segment of [segs] in turn,
    and ends with the dict [dict'] and the store [h']. *)
Inductive resolves (order : list (string * value) → list (string * value))
    (F : fstore) (fuel : nat) : dictref → list string → heap → dictref → heap → Prop :=
| resolves_nil dict h :
    resolves order F fuel dict [] h dict h
| resolves_cons dict seg segs h d h1 dict' h' :
    DictChild order F fuel dict seg h = Done (Some d) h1 →
    resolves order F fuel (Some d) segs h1 dict' h' →
    resolves order F fuel dict (seg :: segs) h dict' h'.

(** ** Predicates on stores and values *)

(** Every object of [h] is in [h'] with the same content. *)
Definition heap_incl (h h' : heap) : Prop :=
  ∀ i m, h !! i = Some m → h' !! i = Some m.

(** The value [NormalizeDict] stores for an entry whose value is [cv] and
    whose normalization is [newVal]. *)
Definition stored (cv : value) (newVal : dictref) : value :=
  match newVal with
  | None => cv
  | Some d => VDict (Some d)
  end.

(** [canonical h n lo v]: [v] is not a map, or it is a dict at or above [lo]
    all of whose values are in turn canonical and above it, nested fewer than
    [n] deep.  These are the values a dict made by [NormalizeDict] holds. *)
Fixpoint canonical (h : heap) (n : nat) (lo : loc) (v : value) : Prop :=
  match n with
  | O => False
  | S n' =>
      match v with
      | VDict (Some l) =>
          lo ≤ l ∧ ∃ m, h !! l = Some m ∧ map_Forall (λ _ x, canonical h n' (S l) x) m
      | VDict None | VMap _ => False
      | _ => True
      end
  end.

(** [copy_of h1 h2 lo v v']: [v'], read in [h2], is a copy of [v], read in
    [h1]: the same value, or a dict at or above [lo] with the keys of [v]
    whose values are copies, above it, of the values of [v]. *)
Inductive copy_of (h1 h2 : heap) : loc → value → value → Prop :=
| copy_same lo v :
    Kind_is_Map v = false → copy_of h1 h2 lo v v
| copy_dict lo l1 l2 m1 m2 :
    lo ≤ l2 →
    h1 !! l1 = Some m1 →
    h2 !! l2 = Some m2 →
    dom m1 = dom m2 →
    (∀ k x1 x2, m1 !! k = Some x1 → m2 !! k = Some x2 → copy_of h1 h2 (S l2) x1 x2) →
    copy_of h1 h2 lo (VDict (Some l1)) (VDict (Some l2)).

(** ** What the recursive call of [NormalizeDict] is known to do *)

(** What one recursive call is known to do, as the loop needs it. *)
Definition rec_spec (n : nat) (rec : value → heap → res dictref) : Prop :=
  ∀ cv h r h', rec cv h = Done r h' →
    heap_incl h h' ∧
    (if Kind_is_Map cv then r = Some (length h) ∧ length h < length h'
     else r = None ∧ h' = h) ∧
    canonical h' n (length h) (stored cv r).

(** What a recursive call does on a value that is already canonical in
    [hA]. *)
Definition rec_again (hA : heap) (n : nat) (rec : value → heap → res dictref) : Prop :=
  ∀ lo v h, canonical hA n lo v → heap_incl hA h →
    ∃ r h', rec v h = Done r h' ∧ copy_of hA h' (length h) v (stored v r).

(** The kinds that the type switch of [OptionInt64] lists. *)
Definition converted (k : int_kind) : bool :=
  match k with
  | Int | Int32 | Uint | Uint32 | Uint64 => true
  | Int8 | Int16 | Int64 | Uint8 | Uint16 => false
  end.

(** ** Examples of stores *)

(** The details of a session as a decoder may hand them over.  The dict at 0
    holds, under "roles", a [map[interface{}]interface{}] (map 0 of [ex_F])
    with one string key, one integer key and the nil key; its "callee" is a
    map of a defined type (map 1), whose "features" is the dict at 1. *)
Definition ex_F : fstore :=
  [ [ (Boxed (Some (KStr "string" "callee")), VMap (Some 1));
      (Boxed (Some (KOpaque "int" 7)), VBool false);
      (Boxed None, VInteger Int 1) ];
    [ (Plain (KStr "URI" "features"), VDict (Some 1)) ] ].

Definition ex_h : heap :=
  [ {[ "roles" := VMap (Some 0); "authid" := VString "alice";
       "none" := VNil; "nilmap" := VDict None ]};
    {[ "call_timeout" := VBool true; "progressive" := VString "yes" ]} ].

(** A store whose dict 0 holds the nil dict under "a", and one whose dict 0
    holds a nil map of another type there. *)
Definition ex_nil_child : heap := [ {[ "a" := VDict None ]} ].
Definition ex_nil_map : heap := [ {[ "a" := VMap None ]} ].

(** ** Reachability *)

(** [reaches h v l]: the dict at [l] is [v] itself or is found from [v]
    by going from a dict to one of its values, any number of times. *)
Inductive reaches (h : heap) : value → loc → Prop :=
| reaches_here l :
    reaches h (VDict (Some l)) l
| reaches_step l m k x l' :
    h !! l = Some m → m !! k = Some x → reaches h x l' →
    reaches h (VDict (Some l)) l'.

(** Two dicts that hold each other, and a map with two keys that are the
    same string once unwrapped. *)
Definition ex_cycle : heap :=
  [ {[ "a" := VDict (Some 1) ]}; {[ "b" := VDict (Some 0) ]} ].

Definition ex_F_clash : fstore :=
  [ [ (Boxed (Some (KStr "string" "id")), VInteger Int 1);
      (Boxed (Some (KStr "URI" "id")), VInteger Int 2);
      (Boxed (Some (KStr "string" "x")), VBool true) ] ].

(** A dict that holds an empty dict under "features", and a dict of
    options with the largest [uint64]. *)
Definition ex_parent : heap := [ {[ "features" := VDict (Some 1) ]}; ∅ ].
Definition ex_big : heap := [ {[ "n" := VInteger Uint64 (2 ^ 64 - 1) ]} ].

(** ** The normal form of a value *)

(** The value of the last entry of [es] whose key is the string [s]. *)
Fixpoint last_value (s : string) (es : list (mkey * value)) : option value :=
  match es with
  | [] => None
  | (key, cv) :: es' =>
      match last_value s es' with
      | Some x => Some x
      | None => if decide (key_String key = Some s) then Some cv else None
      end
  end.

(** [normal_form order F h h' v v']: [v'], read in [h'], is what normalizing
    [v], read in [h], has to give.  A value that is not a map is itself.  A map
    is a dict that has a key for each string that is a key of the map, and no
    other key; under a key it holds the normal form of the value of the entry
    with that key (of the last one, when several keys are the same string). *)
Inductive normal_form (order : list (string * value) → list (string * value))
    (F : fstore) (h h' : heap) : value → value → Prop :=
| normal_form_same v :
    Kind_is_Map v = false →
    normal_form order F h h' v v
| normal_form_dict v d m' :
    Kind_is_Map v = true →
    h' !! d = Some m' →
    (∀ s, m' !! s = None ↔ last_value s (MapEntries order F h v) = None) →
    (∀ s cv x, last_value s (MapEntries order F h v) = Some cv → m' !! s = Some x →
       normal_form order F h h' cv x) →
    normal_form order F h h' v (VDict (Some d)).

(** The same with a bound on the depth and a lower bound on the locations
    of the dicts of [v'], which is what the loop keeps. *)
Fixpoint norm_at (order : list (string * value) → list (string * value))
    (F : fstore) (h h' : heap) (n : nat) (lo : loc) (v v' : value) : Prop :=
  match n with
  | O => False
  | S n' =>
      if Kind_is_Map v then
        ∃ d m', v' = VDict (Some d) ∧ lo ≤ d ∧ h' !! d = Some m' ∧
          ∀ s, match last_value s (MapEntries order F h v) with
               | Some cv => ∃ x, m' !! s = Some x ∧ norm_at order F h h' n' (S d) cv x
               | None => m' !! s = None
               end
      else v' = v
  end.

(** A map of a type other than dict that holds itself, in a dict. *)
Definition ex_F_self : fstore := [ [ (Plain (KStr "string" "b"), VMap (Some 0)) ] ].
Definition ex_h_self : heap := [ {[ "a" := VMap (Some 0) ]} ].

(** * Properties *)

(** ** The store *)

Lemma heap_incl_refl h : heap_incl h h.
Proof. by intros i m. Qed.

Lemma heap_incl_trans h1 h2 h3 :
  heap_incl h1 h2 → heap_incl h2 h3 → heap_incl h1 h3.
Proof. intros H12 H23 i m Hi. eauto. Qed.

Lemma heap_incl_length h h' : heap_incl h h' → length h ≤ length h'.
Proof.
  intros Hi. destruct (decide (length h ≤ length h')) as [|Hn]; [done|].
  destruct (lookup_lt_is_Some_2 h (length h')) as [m Hm]; [lia|].
  apply Hi, lookup_lt_Some in Hm. lia.
Qed.

Lemma heap_incl_prefix h h' : heap_incl h h' ↔ h `prefix_of` h'.
Proof.
  split.
  - intros Hi. exists (drop (length h) h').
    rewrite <- (take_drop (length h) h') at 1. f_equal.
    apply list_eq. intros i. pose proof (heap_incl_length _ _ Hi).
    destruct (decide (i < length h)) as [Hlt|Hge].
    + rewrite lookup_take_lt by done.
      destruct (lookup_lt_is_Some_2 h i Hlt) as [m Hm].
      by rewrite Hm, (Hi _ _ Hm).
    + rewrite lookup_take_ge by lia. symmetry. apply lookup_ge_None. lia.
  - intros Hp i m Hm. by eapply prefix_lookup_Some.
Qed.

Lemma heap_incl_app h k : heap_incl h (h ++ k).
Proof. intros i m Hm. by apply lookup_app_l_Some. Qed.

Lemma heap_incl_deref h h' l :
  heap_incl h h' → l < length h → deref h' l = deref h l.
Proof.
  intros Hi Hl. unfold deref.
  destruct (lookup_lt_is_Some_2 h l Hl) as [m Hm]. by rewrite Hm, (Hi _ _ Hm).
Qed.

Lemma dict_set_length h l s x : length (dict_set h l s x) = length h.
Proof. apply length_insert. Qed.

Lemma dict_set_lookup_ne h l s x i : i ≠ l → dict_set h l s x !! i = h !! i.
Proof. intros Hne. unfold dict_set. by rewrite list_lookup_insert_ne. Qed.

Lemma dict_set_lookup_eq h l s x m :
  h !! l = Some m → dict_set h l s x !! l = Some (<[s := x]> m).
Proof.
  intros Hm. unfold dict_set, deref. rewrite Hm. simpl.
  apply list_lookup_insert_eq. by eapply lookup_lt_Some.
Qed.

Lemma dict_get_incl h h' dict key v :
  heap_incl h h' → dict_get h dict key = Some v → dict_get h' dict key = Some v.
Proof.
  intros Hi. destruct dict as [l|]; simpl; [|done]. unfold deref.
  destruct (h !! l) as [m|] eqn:Hm; simpl; [|by rewrite lookup_empty].
  by rewrite (Hi _ _ Hm).
Qed.

(** ** What [NormalizeDict] stores and returns *)

Lemma canonical_agree h h' n lo v :
  (∀ i m, lo ≤ i → h !! i = Some m → h' !! i = Some m) →
  canonical h n lo v → canonical h' n lo v.
Proof.
  revert lo v. induction n as [|n IH]; intros lo v Hag; [done|].
  destruct v as [| | | | | |[l|]|[l|]|]; simpl; try done.
  intros [Hlo (m & Hm & Hall)]. split; [done|]. exists m. split; [by apply Hag|].
  intros k x Hk. apply (IH (S l)); [|by apply (Hall k)].
  intros i m' Hi. apply Hag. lia.
Qed.

Lemma canonical_lo h n lo lo' v : lo' ≤ lo → canonical h n lo v → canonical h n lo' v.
Proof.
  destruct n as [|n]; [done|].
  destruct v as [| | | | | |[l|]|[l|]|]; simpl; try done.
  intros Hle [Hlo H]. split; [lia|done].
Qed.

Lemma canonical_fuel h n n' lo v : n ≤ n' → canonical h n lo v → canonical h n' lo v.
Proof.
  revert n' lo v. induction n as [|n IH]; intros n' lo v Hle; [done|].
  destruct n' as [|n']; [lia|].
  destruct v as [| | | | | |[l|]|[l|]|]; simpl; try done.
  intros [Hlo (m & Hm & Hall)]. split; [done|]. exists m. split; [done|].
  intros k x Hk. apply IH; [lia|by apply (Hall k)].
Qed.

Lemma canonical_not_map h n lo v : 0 < n → Kind_is_Map v = false → canonical h n lo v.
Proof. intros Hn Hv. destruct n; [lia|]. by destruct v as [| | | | | |[l|]|[l|]|]. Qed.

Lemma copy_of_agree h1 h2 h2' lo v v' :
  copy_of h1 h2 lo v v' →
  (∀ i m, lo ≤ i → h2 !! i = Some m → h2' !! i = Some m) →
  copy_of h1 h2' lo v v'.
Proof.
  induction 1 as [lo v Hv|lo l1 l2 m1 m2 Hlo Hm1 Hm2 Hdom _ IH]; intros Hag.
  - by apply copy_same.
  - eapply copy_dict; [done|done|by apply Hag|done|].
    intros k x1 x2 Hx1 Hx2. eapply IH; [done|done|].
    intros i m Hi. apply Hag. lia.
Qed.

Lemma copy_of_lo h1 h2 lo lo' v v' :
  lo' ≤ lo → copy_of h1 h2 lo v v' → copy_of h1 h2 lo' v v'.
Proof.
  intros Hle Hc. destruct Hc; [by apply copy_same|].
  eapply copy_dict; [lia|done..].
Qed.

Lemma copy_of_deep_eq h1 h2 lo v v' :
  heap_incl h1 h2 → copy_of h1 h2 lo v v' → deep_eq h2 v v'.
Proof.
  intros Hincl. induction 1 as [lo v Hv|lo l1 l2 m1 m2 Hlo Hm1 Hm2 Hdom _ IH].
  - apply deep_eq_refl. by intros l ->.
  - eapply deep_eq_dict; [by apply Hincl|done..].
Qed.

Section NormalizerFacts.

Variable order : list (string * value) → list (string * value).
Variable F : fstore.

Local Abbreviation N := (NormalizeDict order F).

Lemma NormalizeDict_loop_cons rec dict key cv es h :
  NormalizeDict_loop rec dict ((key, cv) :: es) h =
  match key_String key with
  | None => NormalizeDict_loop rec dict es h
  | Some s =>
      match rec cv h with
      | Done newVal h' => NormalizeDict_loop rec dict es (dict_set h' dict s (stored cv newVal))
      | Panicked => Panicked
      | OutOfFuel => OutOfFuel
      end
  end.
Proof.
  simpl. destruct (key_String key); [|done].
  by destruct (rec cv h) as [[d|] h'| |].
Qed.

Lemma NormalizeDict_not_map n v h :
  Kind_is_Map v = false → N (S n) v h = Done None h.
Proof. intros Hv. simpl. by rewrite Hv. Qed.

Lemma NormalizeDict_map n v h :
  Kind_is_Map v = true →
  N (S n) v h =
  match NormalizeDict_loop (N n) (length h) (MapEntries order F h v) (h ++ [∅]) with
  | Done _ h2 => Done (Some (length h)) h2
  | Panicked => Panicked
  | OutOfFuel => OutOfFuel
  end.
Proof. intros Hv. simpl. by rewrite Hv. Qed.

Lemma NormalizeDict_loop_spec n rec dict es h1 h2 m1 :
  rec_spec n rec →
  h1 !! dict = Some m1 →
  map_Forall (λ _ x, canonical h1 n (S dict) x) m1 →
  NormalizeDict_loop rec dict es h1 = Done () h2 →
  length h1 ≤ length h2 ∧
  (∀ i, i < dict → h2 !! i = h1 !! i) ∧
  ∃ m2, h2 !! dict = Some m2 ∧ map_Forall (λ _ x, canonical h2 n (S dict) x) m2.
Proof.
  intros Hrec. revert h1 m1.
  induction es as [|[key cv] es IH]; intros h1 m1 Hd Hall Hrun.
  - simpl in Hrun. injection Hrun as <-. eauto.
  - rewrite NormalizeDict_loop_cons in Hrun.
    destruct (key_String key) as [s|]; [|by eapply IH].
    destruct (rec cv h1) as [r h'| |] eqn:Hcv; try done.
    destruct (Hrec _ _ _ _ Hcv) as (Hincl & _ & Hnorm).
    pose proof (lookup_lt_Some _ _ _ Hd) as Hlt.
    pose proof (heap_incl_length _ _ Hincl) as Hlen.
    assert (Hd' : h' !! dict = Some m1) by by apply Hincl.
    eapply IH in Hrun as (Hlen2 & Hlow & Hm2).
    + rewrite dict_set_length in Hlen2. split; [lia|]. split; [|done].
      intros i Hi. rewrite Hlow by done. rewrite dict_set_lookup_ne by lia.
      destruct (h1 !! i) as [m|] eqn:Him; [by apply Hincl|].
      apply lookup_ge_None in Him. lia.
    + by apply dict_set_lookup_eq.
    + apply map_Forall_insert_2.
      * eapply canonical_agree; [|eapply canonical_lo; [|exact Hnorm]; lia].
        intros i m Hi Him. rewrite dict_set_lookup_ne by lia. done.
      * intros k x Hk. eapply canonical_agree; [|by apply (Hall k)].
        intros i m Hi Him. rewrite dict_set_lookup_ne by lia. by apply Hincl.
Qed.

Lemma NormalizeDict_spec n : rec_spec n (N n).
Proof.
  induction n as [|n IH]; intros v h r h' Hrun; [done|].
  destruct (Kind_is_Map v) eqn:Hv.
  - rewrite NormalizeDict_map in Hrun by done.
    destruct (NormalizeDict_loop _ _ _ _) as [[] h2| |] eqn:Hloop; try done.
    injection Hrun as <- <-.
    eapply NormalizeDict_loop_spec in Hloop as (Hlen & Hlow & m2 & Hm2 & Hall);
      [|exact IH|by apply list_lookup_middle|by apply map_Forall_empty].
    rewrite length_app in Hlen. simpl in Hlen.
    split; [|split; [split; [done|lia]|]].
    + intros i m Hi. rewrite Hlow by by eapply lookup_lt_Some.
      by apply lookup_app_l_Some.
    + simpl. split; [done|]. eauto.
  - rewrite NormalizeDict_not_map in Hrun by done. injection Hrun as <- <-.
    split; [apply heap_incl_refl|]. split; [done|].
    apply canonical_not_map; [lia|done].
Qed.

(** [NormalizeDict] never panics. *)
Lemma NormalizeDict_loop_no_panic rec dict es h :
  (∀ cv h, rec cv h ≠ Panicked) → NormalizeDict_loop rec dict es h ≠ Panicked.
Proof.
  intros Hrec. revert h. induction es as [|[key cv] es IH]; intros h; [done|].
  rewrite NormalizeDict_loop_cons. destruct (key_String key); [|done].
  specialize (Hrec cv h). by destruct (rec cv h).
Qed.

Lemma NormalizeDict_no_panic n v h : N n v h ≠ Panicked.
Proof.
  revert v h. induction n as [|n IH]; intros v h; [done|].
  destruct (Kind_is_Map v) eqn:Hv.
  - rewrite NormalizeDict_map by done.
    pose proof (NormalizeDict_loop_no_panic (N n) (length h)
                  (MapEntries order F h v) (h ++ [∅]) IH).
    by destruct (NormalizeDict_loop _ _ _ _).
  - by rewrite NormalizeDict_not_map.
Qed.

(** Fuel only bounds the depth of the recursion: a call that returns with
    some fuel returns the same with more. *)
Lemma NormalizeDict_loop_fuel rec rec' dict es h h2 :
  (∀ cv h r h', rec cv h = Done r h' → rec' cv h = Done r h') →
  NormalizeDict_loop rec dict es h = Done () h2 →
  NormalizeDict_loop rec' dict es h = Done () h2.
Proof.
  intros Hrec. revert h. induction es as [|[key cv] es IH]; intros h; [done|].
  rewrite !NormalizeDict_loop_cons. destruct (key_String key); [|by apply IH].
  destruct (rec cv h) as [r h'| |] eqn:Hcv; try done.
  rewrite (Hrec _ _ _ _ Hcv). apply IH.
Qed.

Lemma NormalizeDict_fuel n n' v h r h' :
  n ≤ n' → N n v h = Done r h' → N n' v h = Done r h'.
Proof.
  revert n' v h r h'. induction n as [|n IH]; intros n' v h r h' Hle Hrun; [done|].
  destruct n' as [|n']; [lia|].
  destruct (Kind_is_Map v) eqn:Hv.
  - rewrite NormalizeDict_map in Hrun |- * by done.
    destruct (NormalizeDict_loop (N n) _ _ _) as [[] h2| |] eqn:Hloop; try done.
    erewrite NormalizeDict_loop_fuel; [done| |exact Hloop].
    intros cv h0 r0 h0'. apply IH. lia.
  - by rewrite NormalizeDict_not_map in Hrun |- * by done.
Qed.

(** The keys the loop leaves in [dict], and where their values come from. *)
Lemma NormalizeDict_loop_content n rec dict es h1 h2 m1 :
  rec_spec n rec →
  h1 !! dict = Some m1 →
  NormalizeDict_loop rec dict es h1 = Done () h2 →
  ∃ m2, h2 !! dict = Some m2 ∧
    dom m2 = dom m1 ∪ list_to_set (omap key_String es.*1) ∧
    ∀ s x, m2 !! s = Some x →
      m1 !! s = Some x ∨
      ∃ key cv, (key, cv) ∈ es ∧ key_String key = Some s ∧
        if Kind_is_Map cv then ∃ d, x = VDict (Some d) ∧ length h1 ≤ d else x = cv.
Proof.
  intros Hrec. revert h1 m1.
  induction es as [|[key cv] es IH]; intros h1 m1 Hd Hrun.
  - simpl in Hrun. injection Hrun as <-. exists m1.
    split; [done|]. split; [simpl; by rewrite (right_id_L ∅ (∪))|]. eauto.
  - rewrite NormalizeDict_loop_cons in Hrun. rewrite fmap_cons. simpl.
    destruct (key_String key) as [s|] eqn:Hkey.
    2:{ destruct (IH _ _ Hd Hrun) as (m2 & Hm2 & Hdom & Hval).
        exists m2. split; [done|]. split; [done|].
        intros s x Hx. destruct (Hval _ _ Hx) as [|(k & c & Hin & Hk & Hc)]; [by left|].
        right. exists k, c. split; [by apply list_elem_of_further|done]. }
    destruct (rec cv h1) as [r h'| |] eqn:Hcv; try done.
    destruct (Hrec _ _ _ _ Hcv) as (Hincl & Hshape & _).
    pose proof (heap_incl_length _ _ Hincl) as Hlen.
    eapply IH in Hrun as (m2 & Hm2 & Hdom & Hval);
      [|by apply dict_set_lookup_eq, Hincl].
    exists m2. split; [done|]. split.
    { rewrite Hdom, dom_insert_L. simpl. apply set_eq. intros k.
      rewrite !elem_of_union. tauto. }
    intros s' x Hx. rewrite dict_set_length in Hval.
    destruct (Hval _ _ Hx) as [Hins|(k & c & Hin & Hk & Hc)].
    + destruct (decide (s = s')) as [<-|Hne].
      * rewrite lookup_insert_eq in Hins. injection Hins as <-.
        right. exists key, cv. split; [by apply list_elem_of_here|]. split; [done|].
        destruct (Kind_is_Map cv).
        -- destruct Hshape as [-> _]. simpl. eauto.
        -- by destruct Hshape as [-> _].
      * rewrite lookup_insert_ne in Hins by done. by left.
    + right. exists k, c. split; [by apply list_elem_of_further|]. split; [done|].
      destruct (Kind_is_Map c); [|done].
      destruct Hc as (d & -> & Hd'). exists d. split; [done|lia].
Qed.

(** Storing into a dict allocated after [h0] leaves [h0] as it was. *)
Lemma heap_incl_dict_set h0 h dict s x :
  heap_incl h0 h → length h0 ≤ dict → heap_incl h0 (dict_set h dict s x).
Proof.
  intros Hincl Hle i m Hi. pose proof (lookup_lt_Some _ _ _ Hi).
  rewrite dict_set_lookup_ne by lia. by apply Hincl.
Qed.

Lemma NormalizeDict_loop_total n rec dict es h0 h1 :
  rec_spec n rec →
  (∀ cv h, heap_incl h0 h → depth_le F h0 n cv = true → ∃ r h', rec cv h = Done r h') →
  heap_incl h0 h1 →
  length h0 ≤ dict →
  Forall (λ kv, depth_le F h0 n kv.2 = true) es →
  ∃ h2, NormalizeDict_loop rec dict es h1 = Done () h2.
Proof.
  intros Hrec Htot. revert h1.
  induction es as [|[key cv] es IH]; intros h1 Hincl Hle Hes; [by eexists|].
  rewrite NormalizeDict_loop_cons. apply Forall_cons in Hes as [Hcv Hes].
  destruct (key_String key) as [s|]; [|by apply IH].
  destruct (Htot cv h1 Hincl Hcv) as (r & h' & Hrun). rewrite Hrun.
  destruct (Hrec _ _ _ _ Hrun) as (Hincl' & _).
  apply IH; [|done|done].
  apply heap_incl_dict_set; [|done]. by eapply heap_incl_trans.
Qed.

Hypothesis order_perm : ∀ l, order l ≡ₚ l.

Lemma MapEntries_depth_le h0 h n v :
  heap_incl h0 h →
  depth_le F h0 (S n) v = true →
  Forall (λ kv, depth_le F h0 n kv.2 = true) (MapEntries order F h v).
Proof.
  intros Hincl Hv. destruct v as [| | | | | |[l|]|[l|]|]; simpl; try by constructor.
  - simpl in Hv. destruct (h0 !! l) as [m|] eqn:Hm; [|done].
    unfold deref. rewrite (Hincl _ _ Hm). simpl.
    apply Forall_fmap. rewrite order_perm. apply Forall_forall.
    intros kv Hkv. simpl. rewrite forallb_forall in Hv. apply Hv.
    by apply list_elem_of_In.
  - simpl in Hv. destruct (F !! l) as [es|]; [|done]. simpl.
    apply Forall_forall. intros kv Hkv. rewrite forallb_forall in Hv.
    apply Hv. by apply list_elem_of_In.
Qed.

(** On a value of depth below the fuel, [NormalizeDict] returns. *)
Lemma NormalizeDict_total n v h0 h :
  heap_incl h0 h → depth_le F h0 n v = true → ∃ r h', N n v h = Done r h'.
Proof.
  revert v h0 h. induction n as [|n IH]; intros v h0 h Hincl Hv; [done|].
  destruct (Kind_is_Map v) eqn:Hk.
  - rewrite NormalizeDict_map by done.
    destruct (NormalizeDict_loop_total n (N n) (length h)
                (MapEntries order F h v) h0 (h ++ [∅])) as [h2 ->].
    + apply NormalizeDict_spec.
    + intros cv h'. apply IH.
    + eapply heap_incl_trans; [done|apply heap_incl_app].
    + by apply heap_incl_length.
    + by apply MapEntries_depth_le.
    + eauto.
  - rewrite NormalizeDict_not_map by done. eauto.
Qed.

(** ** Normalizing a second time *)

Lemma NormalizeDict_loop_again n rec dict kvs hA h1 (m0 md : gmap string value) :
  rec_spec n rec →
  rec_again hA n rec →
  heap_incl hA h1 →
  length hA ≤ dict →
  h1 !! dict = Some md →
  (∀ s x, (s, x) ∈ kvs → m0 !! s = Some x ∧ ∃ lo, canonical hA n lo x) →
  (∀ k x x', m0 !! k = Some x → md !! k = Some x' → copy_of hA h1 (S dict) x x') →
  ∃ h2 m2,
    NormalizeDict_loop rec dict ((λ kv, (Plain (KStr "string" kv.1), kv.2)) <$> kvs) h1
      = Done () h2 ∧
    h2 !! dict = Some m2 ∧
    dom m2 = dom md ∪ list_to_set kvs.*1 ∧
    (∀ k x x', m0 !! k = Some x → m2 !! k = Some x' → copy_of hA h2 (S dict) x x').
Proof.
  intros Hrec Hagain. revert h1 md.
  induction kvs as [|[s x] kvs IH]; intros h1 md Hincl Hle Hd Hkvs Hcopy.
  - exists h1, md. split; [done|]. split; [done|].
    split; [simpl; by rewrite (right_id_L ∅ (∪))|done].
  - rewrite fmap_cons, NormalizeDict_loop_cons. simpl.
    destruct (Hkvs s x) as [Hx [lo Hcan]]; [by apply list_elem_of_here|].
    destruct (Hagain lo x h1 Hcan Hincl) as (r & h' & Hrun & Hcp). rewrite Hrun.
    destruct (Hrec _ _ _ _ Hrun) as (Hincl' & _).
    pose proof (lookup_lt_Some _ _ _ Hd) as Hlt.
    assert (Hstep : ∀ i m, S dict ≤ i → h' !! i = Some m →
                    dict_set h' dict s (stored x r) !! i = Some m).
    { intros i m Hi Him. by rewrite dict_set_lookup_ne by lia. }
    destruct (IH (dict_set h' dict s (stored x r)) (<[s := stored x r]> md))
      as (h2 & m2 & Hloop & Hm2 & Hdom & Hcopy2).
    + apply heap_incl_dict_set; [|done]. by eapply heap_incl_trans.
    + done.
    + by apply dict_set_lookup_eq, Hincl'.
    + intros s' x' Hin. apply Hkvs. by apply list_elem_of_further.
    + intros k y y' Hy Hy'. destruct (decide (s = k)) as [<-|Hne].
      * rewrite lookup_insert_eq in Hy'. injection Hy' as <-.
        rewrite Hx in Hy. injection Hy as <-.
        eapply copy_of_agree; [|exact Hstep].
        eapply copy_of_lo; [|exact Hcp]. lia.
      * rewrite lookup_insert_ne in Hy' by done.
        eapply copy_of_agree; [|exact Hstep].
        eapply copy_of_agree; [by eapply Hcopy|].
        intros i m _ Him. by apply Hincl'.
    + exists h2, m2. split; [done|]. split; [done|]. split; [|done].
      rewrite Hdom, dom_insert_L. simpl. apply set_eq. intros k.
      rewrite !elem_of_union. tauto.
Qed.

Lemma NormalizeDict_again hA n : rec_again hA n (N n).
Proof.
  induction n as [|n IH]; intros lo v h Hcan Hincl; [done|].
  destruct (Kind_is_Map v) eqn:Hv.
  2:{ rewrite NormalizeDict_not_map by done. exists None, h.
      split; [done|]. by apply copy_same. }
  rewrite NormalizeDict_map by done.
  destruct v as [| | | | | |[l|]|[l|]|]; try done.
  simpl in Hcan. destruct Hcan as [Hlo (m & Hm & Hall)].
  simpl. unfold deref. rewrite (Hincl _ _ Hm). simpl.
  destruct (NormalizeDict_loop_again n (N n) (length h) (order (map_to_list m))
              hA (h ++ [∅]) m ∅) as (h2 & m2 & Hloop & Hm2 & Hdom & Hcopy).
  - apply NormalizeDict_spec.
  - exact IH.
  - eapply heap_incl_trans; [done|apply heap_incl_app].
  - by apply heap_incl_length.
  - by apply list_lookup_middle.
  - intros s x Hin. rewrite order_perm in Hin.
    apply elem_of_map_to_list in Hin. split; [done|].
    exists (S l). by apply (Hall s).
  - intros k x x' _ Hk. by rewrite lookup_empty in Hk.
  - rewrite Hloop. exists (Some (length h)), h2. split; [done|]. simpl.
    eapply copy_dict; [done|done|done| |].
    + apply set_eq. intros k.
      rewrite Hdom, dom_empty_L, elem_of_union, elem_of_dom, elem_of_list_to_set,
        list_elem_of_fmap.
      split.
      * intros [x Hx]. right. exists (k, x). split; [done|].
        rewrite order_perm. by apply elem_of_map_to_list.
      * intros [Hk|([k' x] & -> & Hin)]; [by apply not_elem_of_empty in Hk|].
        rewrite order_perm in Hin.
        apply elem_of_map_to_list in Hin. by exists x.
    + intros k x1 x2 Hx1 Hx2. by eapply Hcopy.
Qed.

End NormalizerFacts.

(** ** Normalization *)

Lemma depth_le_mono F h n n' v :
  n ≤ n' → depth_le F h n v = true → depth_le F h n' v = true.
Proof.
  revert n' v. induction n as [|n IH]; intros n' v Hle; [done|].
  destruct n' as [|n']; [lia|].
  destruct v as [| | | | | |[l|]|[l|]|]; simpl; try done.
  - destruct (h !! l) as [m|]; [|done]. rewrite !forallb_forall.
    intros Hall kv Hkv. apply IH; [lia|by apply Hall].
  - destruct (F !! l) as [es|]; [|done]. rewrite !forallb_forall.
    intros Hall kv Hkv. apply IH; [lia|by apply Hall].
Qed.

Lemma canonical_depth_le F h n lo v : canonical h n lo v → depth_le F h n v = true.
Proof.
  revert lo v. induction n as [|n IH]; intros lo v; [done|].
  destruct v as [| | | | | |[l|]|[l|]|]; simpl; try done.
  intros [_ (m & -> & Hall)]. apply forallb_forall. intros [k x] Hkx.
  apply list_elem_of_In, elem_of_map_to_list in Hkx. by eapply IH, (Hall k).
Qed.

(** ** The normal form is what [NormalizeDict] makes *)

Section NormalFormFacts.

Variable order : list (string * value) → list (string * value).
Variable F : fstore.

Lemma norm_at_agree h h' h'' n lo v v' :
  (∀ i m, lo ≤ i → h' !! i = Some m → h'' !! i = Some m) →
  norm_at order F h h' n lo v v' → norm_at order F h h'' n lo v v'.
Proof.
  revert lo v v'. induction n as [|n IH]; intros lo v v' Hag; [done|].
  simpl. destruct (Kind_is_Map v); [|done].
  intros (d & m' & -> & Hlo & Hm' & Hall).
  exists d, m'. split; [done|]. split; [done|]. split; [by apply Hag|].
  intros s. specialize (Hall s).
  destruct (last_value s (MapEntries order F h v)) as [cv|]; [|done].
  destruct Hall as (x & Hx & Hnorm). exists x. split; [done|].
  eapply IH; [|done]. intros i m Hi. apply Hag. lia.
Qed.

Lemma norm_at_lo h h' n lo lo' v v' :
  lo' ≤ lo → norm_at order F h h' n lo v v' → norm_at order F h h' n lo' v v'.
Proof.
  intros Hle. destruct n as [|n]; [done|]. simpl.
  destruct (Kind_is_Map v); [|done].
  intros (d & m' & -> & Hlo & Hrest). exists d, m'. split; [done|]. split; [lia|done].
Qed.

Lemma norm_at_normal_form h h' n lo v v' :
  norm_at order F h h' n lo v v' → normal_form order F h h' v v'.
Proof.
  revert lo v v'. induction n as [|n IH]; intros lo v v'; [done|].
  simpl. destruct (Kind_is_Map v) eqn:Hv.
  - intros (d & m' & -> & _ & Hm' & Hall).
    eapply normal_form_dict; [done|done| |].
    + intros s. specialize (Hall s).
      destruct (last_value s (MapEntries order F h v)) as [cv|].
      * destruct Hall as (x & -> & _). done.
      * done.
    + intros s cv x Hlast Hx. specialize (Hall s). rewrite Hlast in Hall.
      destruct Hall as (x' & Hx' & Hnorm). rewrite Hx in Hx'. injection Hx' as <-.
      by eapply IH.
  - intros ->. by apply normal_form_same.
Qed.

(** The entries of a value of finite depth do not depend on what has been
    added to the store since. *)
Lemma MapEntries_incl h0 h n v :
  heap_incl h0 h → depth_le F h0 n v = true →
  MapEntries order F h v = MapEntries order F h0 v.
Proof.
  intros Hincl Hv. destruct n as [|n]; [done|].
  destruct v as [| | | | | |[l|]|[l|]|]; try done.
  simpl in Hv |- *. destruct (h0 !! l) as [m|] eqn:Hm; [|done].
  unfold deref. by rewrite Hm, (Hincl _ _ Hm).
Qed.

Lemma NormalizeDict_loop_norm n rec dict es h0 h1 h2 m1 :
  rec_spec n rec →
  (∀ cv h r h', heap_incl h0 h → depth_le F h0 n cv = true →
     rec cv h = Done r h' → norm_at order F h0 h' n (length h) cv (stored cv r)) →
  heap_incl h0 h1 →
  length h0 ≤ dict →
  h1 !! dict = Some m1 →
  Forall (λ kv, depth_le F h0 n kv.2 = true) es →
  NormalizeDict_loop rec dict es h1 = Done () h2 →
  (∀ i m, i ≠ dict → h1 !! i = Some m → h2 !! i = Some m) ∧
  ∃ m2, h2 !! dict = Some m2 ∧
    ∀ s, match last_value s es with
         | Some cv => ∃ x, m2 !! s = Some x ∧ norm_at order F h0 h2 n (S dict) cv x
         | None => m2 !! s = m1 !! s
         end.
Proof.
  intros Hrec Hnorm. revert h1 m1.
  induction es as [|[key cv] es IH]; intros h1 m1 Hincl Hle Hd Hes Hrun.
  - injection Hrun as <-. split; [done|]. by exists m1.
  - rewrite NormalizeDict_loop_cons in Hrun. apply Forall_cons in Hes as [Hcv Hes].
    simpl in Hcv. destruct (key_String key) as [s0|] eqn:Hkey.
    2:{ destruct (IH _ _ Hincl Hle Hd Hes Hrun) as (Hframe & m2 & Hm2 & Hall).
        split; [done|]. exists m2. split; [done|]. intros s. specialize (Hall s).
        simpl. rewrite Hkey. destruct (last_value s es); [done|].
        by rewrite decide_False. }
    destruct (rec cv h1) as [r h'| |] eqn:Hrec1; try done.
    destruct (Hrec _ _ _ _ Hrec1) as (Hincl' & _).
    pose proof (Hnorm _ _ _ _ Hincl Hcv Hrec1) as Hx0.
    pose proof (lookup_lt_Some _ _ _ Hd) as Hlt.
    destruct (IH (dict_set h' dict s0 (stored cv r)) (<[s0 := stored cv r]> m1))
      as (Hframe & m2 & Hm2 & Hall); [| |by apply dict_set_lookup_eq, Hincl'|done|done|].
    { apply heap_incl_dict_set; [|done]. by eapply heap_incl_trans. }
    { done. }
    assert (Hframe' : ∀ i m, i ≠ dict → h' !! i = Some m → h2 !! i = Some m).
    { intros i m Hi Him. apply Hframe; [done|]. by rewrite dict_set_lookup_ne. }
    split; [intros i m Hi Him; apply Hframe'; [done|by apply Hincl']|].
    exists m2. split; [done|]. intros s. specialize (Hall s). simpl. rewrite Hkey.
    destruct (last_value s es) as [c|]; [done|].
    destruct (decide (Some s0 = Some s)) as [[= ->]|Hne].
    + exists (stored cv r). split; [by rewrite Hall, lookup_insert_eq|].
      eapply norm_at_agree; [|eapply norm_at_lo; [|exact Hx0]; lia].
      intros i m Hi. apply Hframe'. lia.
    + rewrite Hall. apply lookup_insert_ne. congruence.
Qed.

Hypothesis order_perm : ∀ l, order l ≡ₚ l.

Lemma NormalizeDict_norm n : ∀ v h0 h r h',
  heap_incl h0 h → depth_le F h0 n v = true →
  NormalizeDict order F n v h = Done r h' →
  norm_at order F h0 h' n (length h) v (stored v r).
Proof.
  induction n as [|n IH]; intros v h0 h r h' Hincl Hv Hrun; [done|].
  cbn [norm_at]. destruct (Kind_is_Map v) eqn:Hk.
  - rewrite NormalizeDict_map in Hrun by done.
    destruct (NormalizeDict_loop _ _ _ _) as [[] h2| |] eqn:Hloop; try done.
    injection Hrun as <- <-.
    rewrite (MapEntries_incl h0 h (S n) v Hincl Hv) in Hloop.
    eapply (NormalizeDict_loop_norm n _ _ _ h0) in Hloop as (_ & m2 & Hm2 & Hall).
    + exists (length h), m2. split; [done|]. split; [done|]. split; [done|].
      intros s. specialize (Hall s).
      destruct (last_value s (MapEntries order F h0 v)); [done|].
      by rewrite Hall, lookup_empty.
    + apply NormalizeDict_spec.
    + intros cv h1 r1 h1'. apply IH.
    + eapply heap_incl_trans; [done|apply heap_incl_app].
    + by apply heap_incl_length.
    + by apply list_lookup_middle.
    + exact (MapEntries_depth_le order F order_perm h0 h0 n v (heap_incl_refl h0) Hv).
  - rewrite NormalizeDict_not_map in Hrun by done. by injection Hrun as <- <-.
Qed.

End NormalFormFacts.

(** C5, amended.  On a value of finite depth (one from which no map that
    contains itself can be reached) [NormalizeDict] returns, and returns nil
    exactly when the value is not map-shaped.  On a map-shaped value it
    returns a new dict, leaving every existing dict as it was; the keys of the
    new dict are exactly the strings that the keys of the argument are or, for
    interface-typed keys, hold; keys of any other kind are dropped.  Each
    value is the value of such an entry: itself when it is not map-shaped, a
    fresh dict when it is.  The new dict is the normal form of the argument
    all the way down: every map nested in the argument has become a dict with
    exactly its string keys, holding the normal forms of its values.  A map
    without entries gives an empty dict, not nil. *)
Theorem NormalizeDict_result order F n v h :
  (∀ l, order l ≡ₚ l) →
  depth_le F h n v = true →
  ∃ r h', NormalizeDict order F n v h = Done r h' ∧
    h `prefix_of` h' ∧
    (r = None ↔ Kind_is_Map v = false) ∧
    (Kind_is_Map v = true →
      r = Some (length h) ∧
      canonical h' n 0 (VDict r) ∧
      normal_form order F h h' v (VDict r) ∧
      ∃ m, h' !! length h = Some m ∧
        (∀ s, s ∈ dom m ↔
           ∃ key, key ∈ (MapEntries order F h v).*1 ∧ key_String key = Some s) ∧
        (∀ s x, m !! s = Some x →
           ∃ key cv, (key, cv) ∈ MapEntries order F h v ∧ key_String key = Some s ∧
             if Kind_is_Map cv then ∃ d, x = VDict (Some d) ∧ length h < d else x = cv) ∧
        (MapEntries order F h v = [] → m = ∅)).
Proof.
  intros Hperm Hdepth.
  destruct (NormalizeDict_total order F Hperm n v h h (heap_incl_refl h) Hdepth)
    as (r & h' & Hrun).
  exists r, h'. split; [done|].
  destruct (NormalizeDict_spec order F n _ _ _ _ Hrun) as (Hincl & Hshape & Hcan).
  pose proof (NormalizeDict_norm order F Hperm n v h h r h' (heap_incl_refl h) Hdepth Hrun)
    as Hnorm.
  split; [by apply heap_incl_prefix|].
  destruct n as [|n]; [done|].
  destruct (Kind_is_Map v) eqn:Hv.
  - destruct Hshape as [-> _]. split; [done|]. intros _. split; [done|].
    split; [eapply canonical_lo; [|exact Hcan]; lia|].
    split; [by eapply norm_at_normal_form|].
    rewrite NormalizeDict_map in Hrun by done.
    destruct (NormalizeDict_loop _ _ _ _) as [[] h2| |] eqn:Hloop; try done.
    injection Hrun as <-.
    eapply NormalizeDict_loop_content in Hloop as (m & Hm & Hdom & Hval);
      [|apply NormalizeDict_spec|by apply list_lookup_middle].
    exists m. split; [done|].
    assert (Hkeys : ∀ s, s ∈ dom m ↔
              ∃ key, key ∈ (MapEntries order F h v).*1 ∧ key_String key = Some s).
    { intros s. rewrite Hdom, dom_empty_L, elem_of_union, elem_of_list_to_set,
        list_elem_of_omap. split.
      - intros [Hs|Hs]; [by apply not_elem_of_empty in Hs|done].
      - by right. }
    split; [done|]. split.
    + intros s x Hx. destruct (Hval _ _ Hx) as [Hx'|(key & cv & Hin & Hkey & Hcv)];
        [by rewrite lookup_empty in Hx'|].
      exists key, cv. split; [done|]. split; [done|].
      destruct (Kind_is_Map cv); [|done].
      destruct Hcv as (d & -> & Hd). rewrite length_app in Hd. simpl in Hd.
      exists d. split; [done|lia].
    + intros Hnil. apply map_empty. intros s. apply not_elem_of_dom.
      rewrite Hkeys, Hnil. intros (key & Hin & _). by apply elem_of_nil in Hin.
  - destruct Hshape as [-> _]. done.
Qed.

(** The session details of [ex_h] normalize to a new dict at 2; "roles"
    keeps its string key only. *)
Lemma NormalizeDict_result_witness :
  (∀ l : list (string * value), id l ≡ₚ l) ∧
  depth_le ex_F ex_h 5 (VDict (Some 0)) = true ∧
  ∃ r h', NormalizeDict id ex_F 5 (VDict (Some 0)) ex_h = Done r h' ∧
    ex_h `prefix_of` h' ∧
    (r = None ↔ Kind_is_Map (VDict (Some 0)) = false) ∧
    (Kind_is_Map (VDict (Some 0)) = true →
      r = Some (length ex_h) ∧
      canonical h' 5 0 (VDict r) ∧
      normal_form id ex_F ex_h h' (VDict (Some 0)) (VDict r) ∧
      ∃ m, h' !! length ex_h = Some m ∧
        (∀ s, s ∈ dom m ↔
           ∃ key, key ∈ (MapEntries id ex_F ex_h (VDict (Some 0))).*1 ∧
                  key_String key = Some s) ∧
        (∀ s x, m !! s = Some x →
           ∃ key cv, (key, cv) ∈ MapEntries id ex_F ex_h (VDict (Some 0)) ∧
             key_String key = Some s ∧
             if Kind_is_Map cv then ∃ d, x = VDict (Some d) ∧ length ex_h < d else x = cv) ∧
        (MapEntries id ex_F ex_h (VDict (Some 0)) = [] → m = ∅)).
Proof.
  split; [done|]. split; [by vm_compute|].
  apply (NormalizeDict_result id ex_F 5 (VDict (Some 0)) ex_h); [done|by vm_compute].
Defined.

(** C2.  Normalization is idempotent.  When normalizing a map-shaped [x]
    returns the dict [d], normalizing [d] returns as well, a dict [d'] that is
    structurally equal to [d]: the same keys, holding equal values or, where
    [d] holds a dict, a structurally equal dict.  [d'] is again canonical:
    every map nested in it is a dict that normalization made. *)
Theorem NormalizeDict_idempotent order F n x h d h1 :
  (∀ l, order l ≡ₚ l) →
  Kind_is_Map x = true →
  NormalizeDict order F n x h = Done d h1 →
  ∃ d' h2, NormalizeDict order F n (VDict d) h1 = Done d' h2 ∧
    h1 `prefix_of` h2 ∧
    deep_eq h2 (VDict d) (VDict d') ∧
    canonical h2 n 0 (VDict d').
Proof.
  intros Hperm Hx Hrun.
  destruct (NormalizeDict_spec order F n _ _ _ _ Hrun) as (_ & Hshape & Hcan).
  rewrite Hx in Hshape. destruct Hshape as [-> _]. simpl in Hcan.
  destruct (NormalizeDict_again order F Hperm h1 n _ _ h1 Hcan (heap_incl_refl h1))
    as (d' & h2 & Hrun2 & Hcopy).
  destruct (NormalizeDict_spec order F n _ _ _ _ Hrun2) as (Hincl & Hshape & Hcan2).
  simpl in Hshape. destruct Hshape as [-> _]. simpl in Hcopy, Hcan2.
  exists (Some (length h1)), h2. split; [done|].
  split; [by apply heap_incl_prefix|]. split.
  - by eapply copy_of_deep_eq.
  - eapply canonical_lo; [|exact Hcan2]. lia.
Qed.

Lemma NormalizeDict_idempotent_witness :
  ∃ d h1,
    (∀ l : list (string * value), id l ≡ₚ l) ∧
    Kind_is_Map (VDict (Some 0)) = true ∧
    NormalizeDict id ex_F 5 (VDict (Some 0)) ex_h = Done d h1 ∧
    ∃ d' h2, NormalizeDict id ex_F 5 (VDict d) h1 = Done d' h2 ∧
      h1 `prefix_of` h2 ∧
      deep_eq h2 (VDict d) (VDict d') ∧
      canonical h2 5 0 (VDict d').
Proof.
  eexists _, _. split; [done|]. split; [done|].
  assert (Hrun : ∀ r, r = NormalizeDict id ex_F 5 (VDict (Some 0)) ex_h →
                 NormalizeDict id ex_F 5 (VDict (Some 0)) ex_h = r) by done.
  split; [apply Hrun; vm_compute; reflexivity|].
  apply (NormalizeDict_idempotent id ex_F 5 (VDict (Some 0)) ex_h); [done|done|].
  apply Hrun. vm_compute. reflexivity.
Defined.

(** ** The child resolver *)

Section ResolverFacts.

Variable order : list (string * value) → list (string * value).
Variable F : fstore.

Lemma DictChild_no_panic fuel dict key h :
  DictChild order F fuel dict key h ≠ Panicked.
Proof.
  unfold DictChild.
  destruct (dict_get h dict key) as [[| | | | | |c|m|]|]; try done;
    apply NormalizeDict_no_panic.
Qed.

Lemma DictChild_incl fuel dict key h r h' :
  DictChild order F fuel dict key h = Done r h' → heap_incl h h'.
Proof.
  unfold DictChild. intros Hrun.
  destruct (dict_get h dict key) as [[| | | | | |c|m|]|];
    try (injection Hrun as <- <-; apply heap_incl_refl);
    by destruct (NormalizeDict_spec order F fuel _ _ _ _ Hrun).
Qed.

Lemma DictChild_fuel n n' dict key h r h' :
  n ≤ n' →
  DictChild order F n dict key h = Done r h' →
  DictChild order F n' dict key h = Done r h'.
Proof.
  intros Hle. unfold DictChild.
  destruct (dict_get h dict key) as [[| | | | | |c|m|]|]; try done;
    by apply NormalizeDict_fuel.
Qed.

Lemma dict_get_depth_le h n dict key v :
  depth_le F h n (VDict dict) = true →
  dict_get h dict key = Some v →
  depth_le F h n v = true.
Proof.
  intros Hd Hv. destruct n as [|n]; [done|]. destruct dict as [l|]; [|done].
  simpl in Hd, Hv. unfold deref in Hv.
  destruct (h !! l) as [m|]; [|done]. simpl in Hv.
  rewrite forallb_forall in Hd. rename Hd into Hall.
  apply (depth_le_mono F h n); [lia|].
  apply (Hall (key, v)). by apply list_elem_of_In, elem_of_map_to_list.
Qed.

Hypothesis order_perm : ∀ l, order l ≡ₚ l.

(** On a stored value of finite depth [DictChild] returns, and what it
    returns is of finite depth again. *)
Lemma DictChild_total n dict key h :
  (∀ v, dict_get h dict key = Some v → depth_le F h n v = true) →
  ∃ r h', DictChild order F n dict key h = Done r h' ∧
    (0 < n → depth_le F h' n (VDict r) = true).
Proof.
  intros Hdepth. unfold DictChild.
  destruct (dict_get h dict key) as [v|] eqn:Hget.
  2:{ exists None, h. split; [done|]. intros Hn. destruct n; [lia|done]. }
  specialize (Hdepth v eq_refl).
  assert (∃ r h', NormalizeDict order F n v h = Done r h' ∧
            (Kind_is_Map v = true → depth_le F h' n (VDict r) = true) ∧
            (Kind_is_Map v = false → r = None)) as (r & h' & Hrun & Hmap & Hnot).
  { destruct (NormalizeDict_total order F order_perm n v h h (heap_incl_refl h) Hdepth)
      as (r & h' & Hrun).
    exists r, h'. split; [done|].
    destruct (NormalizeDict_spec order F n _ _ _ _ Hrun) as (_ & Hshape & Hcan).
    destruct (Kind_is_Map v); split; try done.
    - intros _. destruct Hshape as [-> _]. by eapply canonical_depth_le.
    - intros _. by destruct Hshape. }
  destruct v as [| | | | | |c|m|];
    try (exists r, h'; split; [done|]; intros Hn; rewrite Hnot by done; destruct n; [lia|done]).
  - exists None, h. split; [done|]. intros Hn. destruct n; [lia|done].
  - exists c, h. done.
  - exists r, h'. split; [done|]. intros _. by apply Hmap.
Qed.

End ResolverFacts.

(** C6, amended.  [DictChild] returns nil exactly when the key is absent, or
    the stored value is nil, or is the nil dict, or is not map-shaped.  A
    stored dict is returned as it is, the same object, in an unchanged store;
    for any other stored value the result is that of [NormalizeDict] on it.
    Whatever the case, every dict that existed before the call is left as it
    was. *)
Theorem DictChild_result order F n dict key h :
  (∀ l, order l ≡ₚ l) →
  (∀ v, dict_get h dict key = Some v → depth_le F h n v = true) →
  ∃ r h', DictChild order F n dict key h = Done r h' ∧
    h `prefix_of` h' ∧
    (r = None ↔
       dict_get h dict key = None ∨
       dict_get h dict key = Some VNil ∨
       dict_get h dict key = Some (VDict None) ∨
       ∃ v, dict_get h dict key = Some v ∧ Kind_is_Map v = false) ∧
    (∀ child, dict_get h dict key = Some (VDict child) → r = child ∧ h' = h) ∧
    (∀ v, dict_get h dict key = Some v → v ≠ VNil → (∀ child, v ≠ VDict child) →
       NormalizeDict order F n v h = Done r h').
Proof.
  intros Hperm Hdepth.
  destruct (DictChild_total order F Hperm n dict key h Hdepth) as (r & h' & Hrun & _).
  exists r, h'. split; [done|].
  split; [eapply heap_incl_prefix, DictChild_incl, Hrun|].
  unfold DictChild in Hrun.
  destruct (dict_get h dict key) as [v|] eqn:Hget.
  2:{ injection Hrun as <- <-. split; [|done]. split; [by left|done]. }
  assert (Hnorm : ∀ r' h'', NormalizeDict order F n v h = Done r' h'' →
            Kind_is_Map v = true → r' ≠ None).
  { intros r' h'' Hr Hv. destruct (NormalizeDict_spec order F n _ _ _ _ Hr) as (_ & Hs & _).
    rewrite Hv in Hs. by destruct Hs as [-> _]. }
  assert (Hnot : ∀ r' h'', NormalizeDict order F n v h = Done r' h'' →
            Kind_is_Map v = false → r' = None).
  { intros r' h'' Hr Hv. destruct (NormalizeDict_spec order F n _ _ _ _ Hr) as (_ & Hs & _).
    rewrite Hv in Hs. by destruct Hs as [-> _]. }
  destruct v as [| | | | | |c|m|];
    try (split; [split; [intros _; right; right; right; by eexists|
                         intros _; by eapply Hnot]|
                 split; [by intros child [=]|by intros v [= <-]]]).
  - injection Hrun as <- <-. split; [split; [by right; left|done]|].
    split; [by intros child [=]|by intros v [= <-]].
  - injection Hrun as <- <-. split; [split|split].
    + intros ->. by right; right; left.
    + intros [[=]|[[=]|[[= <-]|(v & [= <-] & [=])]]]. done.
    + by intros child [= <-].
    + intros v [= <-] _ Hc. by destruct (Hc c).
  - split; [split|split].
    + intros ->. by destruct (Hnorm _ _ Hrun).
    + intros [[=]|[[=]|[[=]|(v & [= <-] & [=])]]].
    + by intros child [=].
    + by intros v [= <-].
Qed.

Lemma DictChild_result_witness :
  (∀ l : list (string * value), id l ≡ₚ l) ∧
  (∀ v, dict_get ex_h (Some 0) "roles" = Some v → depth_le ex_F ex_h 4 v = true) ∧
  ∃ r h', DictChild id ex_F 4 (Some 0) "roles" ex_h = Done r h' ∧
    ex_h `prefix_of` h' ∧
    (r = None ↔
       dict_get ex_h (Some 0) "roles" = None ∨
       dict_get ex_h (Some 0) "roles" = Some VNil ∨
       dict_get ex_h (Some 0) "roles" = Some (VDict None) ∨
       ∃ v, dict_get ex_h (Some 0) "roles" = Some v ∧ Kind_is_Map v = false) ∧
    (∀ child, dict_get ex_h (Some 0) "roles" = Some (VDict child) → r = child ∧ h' = ex_h) ∧
    (∀ v, dict_get ex_h (Some 0) "roles" = Some v → v ≠ VNil → (∀ child, v ≠ VDict child) →
       NormalizeDict id ex_F 4 v ex_h = Done r h').
Proof.
  assert (Hd : ∀ v, dict_get ex_h (Some 0) "roles" = Some v →
               depth_le ex_F ex_h 4 v = true).
  { intros v Hv. vm_compute in Hv. injection Hv as <-. by vm_compute. }
  split; [done|]. split; [exact Hd|].
  apply (DictChild_result id ex_F 4 (Some 0) "roles" ex_h); [done|exact Hd].
Defined.

(** A key that holds the nil dict: [DictChild] returns nil although the key
    is present, its value is not the nil interface, and the value is a dict.
    Nor does it help to count every nil map as nil: for a key that holds a nil
    map of another type [DictChild] returns a new, empty dict. *)
Lemma DictChild_nil_dict_counterexample :
  ¬ (DictChild id [] 1 (Some 0) "a" ex_nil_child = Done None ex_nil_child ↔
       dict_get ex_nil_child (Some 0) "a" = None ∨
       dict_get ex_nil_child (Some 0) "a" = Some VNil ∨
       ∃ v, dict_get ex_nil_child (Some 0) "a" = Some v ∧
            (∀ child, v ≠ VDict child) ∧
            NormalizeDict id [] 1 v ex_nil_child = Done None ex_nil_child) ∧
  ¬ (DictChild id [] 1 (Some 0) "a" ex_nil_map = Done None ex_nil_map ↔
       dict_get ex_nil_map (Some 0) "a" = None ∨
       (∃ v, dict_get ex_nil_map (Some 0) "a" = Some v ∧
             (v = VNil ∨ v = VDict None ∨ v = VMap None)) ∨
       ∃ v, dict_get ex_nil_map (Some 0) "a" = Some v ∧
            (∀ child, v ≠ VDict child) ∧
            NormalizeDict id [] 1 v ex_nil_map = Done None ex_nil_map).
Proof.
  split.
  - intros [Hnil _].
    assert (Hrun : DictChild id [] 1 (Some 0) "a" ex_nil_child = Done None ex_nil_child)
      by by vm_compute.
    destruct (Hnil Hrun) as [Habs|[Hv|(v & Hv & Hnd & _)]].
    + vm_compute in Habs. discriminate.
    + vm_compute in Hv. discriminate.
    + vm_compute in Hv. injection Hv as <-. by destruct (Hnd None).
  - intros [_ Hnil].
    assert (Hrun : DictChild id [] 1 (Some 0) "a" ex_nil_map =
                   Done (Some 1) (ex_nil_map ++ [∅])) by by vm_compute.
    rewrite Hrun in Hnil. discriminate Hnil.
    right. left. exists (VMap None). split; [by vm_compute|]. by right; right.
Qed.

(** ** The path resolver *)

Section PathFacts.

Variable order : list (string * value) → list (string * value).
Variable F : fstore.

Lemma index_lookup {A} (s : list A) (i : nat) : index s (Z.of_nat i) = s !! i.
Proof.
  unfold index. rewrite bool_decide_eq_true_2 by lia. by rewrite Nat2Z.id.
Qed.

Lemma index_middle {A} (pre rest : list A) x :
  index (pre ++ x :: rest) (Z.of_nat (length pre)) = Some x.
Proof. rewrite index_lookup. apply list_lookup_middle. done. Qed.

Lemma index_last {A} (pre : list A) x :
  index (pre ++ [x]) (Z.of_nat (length (pre ++ [x])) - 1) = Some x.
Proof.
  rewrite length_app. simpl.
  replace (Z.of_nat (length pre + 1) - 1)%Z with (Z.of_nat (length pre)) by lia.
  apply index_middle.
Qed.

Lemma slice_to_lookup {A} (s : list A) (n : nat) :
  n ≤ length s → slice_to s (Z.of_nat n) = Some (take n s).
Proof.
  intros Hn. unfold slice_to. rewrite bool_decide_eq_true_2 by lia.
  by rewrite Nat2Z.id.
Qed.

Lemma slice_to_app {A} (pre rest : list A) :
  slice_to (pre ++ rest) (Z.of_nat (length pre)) = Some pre.
Proof.
  rewrite slice_to_lookup by (rewrite length_app; lia).
  by rewrite take_app_length.
Qed.

Lemma slice_to_init {A} (pre : list A) x :
  slice_to (pre ++ [x]) (Z.of_nat (length (pre ++ [x])) - 1) = Some pre.
Proof.
  rewrite length_app. simpl.
  replace (Z.of_nat (length pre + 1) - 1)%Z with (Z.of_nat (length pre)) by lia.
  apply slice_to_app.
Qed.

Lemma slice_to_next {A} (pre rest : list A) x :
  slice_to (pre ++ x :: rest) (Z.of_nat (length pre) + 1) = Some (pre ++ [x]).
Proof.
  replace (Z.of_nat (length pre) + 1)%Z with (Z.of_nat (length (pre ++ [x])))
    by (rewrite length_app; simpl; lia).
  rewrite (cons_middle x pre rest), (assoc_L (++)). apply slice_to_app.
Qed.

(** The loop follows the segments that resolve. *)
Lemma DictValue_loop_resolves fuel path pre segs rest more dict h dict' h' :
  resolves order F fuel dict segs h dict' h' →
  path = pre ++ segs ++ rest →
  DictValue_loop order F fuel path (seq (length pre) (length segs) ++ more) dict h =
  DictValue_loop order F fuel path more dict' h'.
Proof.
  intros Hres. revert pre.
  induction Hres as [dict h|dict seg segs h d h1 dict' h' Hchild _ IH]; intros pre ->.
  - done.
  - simpl. rewrite index_middle, Hchild.
    specialize (IH (pre ++ [seg])). rewrite length_app in IH. simpl in IH.
    rewrite Nat.add_1_r in IH. apply IH.
    by rewrite <- (assoc_L (++)).
Qed.

Lemma DictValue_loop_no_panic fuel path idx dict h :
  Forall (λ i, i < length path) idx →
  DictValue_loop order F fuel path idx dict h ≠ Panicked.
Proof.
  intros Hidx. revert dict h.
  induction Hidx as [|i idx Hi _ IH]; intros dict h; [done|].
  simpl. rewrite index_lookup.
  destruct (lookup_lt_is_Some_2 path i Hi) as [seg ->].
  pose proof (DictChild_no_panic order F fuel dict seg h).
  destruct (DictChild order F fuel dict seg h) as [[d|] h1| |]; try done.
  replace (Z.of_nat i + 1)%Z with (Z.of_nat (S i)) by lia.
  by rewrite slice_to_lookup by lia.
Qed.

Hypothesis order_perm : ∀ l, order l ≡ₚ l.

Lemma DictValue_loop_total n path idx dict h :
  Forall (λ i, i < length path) idx →
  depth_le F h n (VDict dict) = true →
  ∃ r h', DictValue_loop order F n path idx dict h = Done r h' ∧
    ∀ v err, r = inl (v, err) → v = VNil.
Proof.
  intros Hidx. revert dict h.
  induction Hidx as [|i idx Hi _ IH]; intros dict h Hdepth;
    [by eexists _, _|].
  simpl. rewrite index_lookup.
  destruct (lookup_lt_is_Some_2 path i Hi) as [seg ->].
  destruct (DictChild_total order F order_perm n dict seg h) as (r & h1 & -> & Hr).
  { intros v. by apply dict_get_depth_le. }
  destruct r as [d|].
  - apply IH, Hr. destruct n; [done|lia].
  - replace (Z.of_nat i + 1)%Z with (Z.of_nat (S i)) by lia.
    rewrite slice_to_lookup by lia. eexists _, _. split; [done|].
    by intros v err [= <- _].
Qed.

(** The three ways [DictValue] ends once the segments of [pre] have
    resolved. *)
Lemma DictValue_fails_at fuel dict h pre d1 h1 seg rest last h2 :
  resolves order F fuel dict pre h d1 h1 →
  DictChild order F fuel d1 seg h1 = Done None h2 →
  DictValue order F fuel dict (pre ++ seg :: rest ++ [last]) h =
  Done (VNil, errors_New ("cannot find: " +:+ strings_Join (pre ++ [seg]) ".")) h2.
Proof.
  intros Hres Hchild. unfold DictValue.
  replace (pre ++ seg :: rest ++ [last]) with ((pre ++ seg :: rest) ++ [last])
    by by rewrite <- (assoc_L (++)).
  rewrite slice_to_init, length_app. simpl. rewrite seq_app. simpl.
  rewrite (DictValue_loop_resolves fuel _ [] pre (seg :: rest ++ [last]) _ _ _ _ _ Hres)
    by by rewrite <- (assoc_L (++)).
  simpl. rewrite <- (assoc_L (++)). simpl.
  by rewrite index_middle, Hchild, slice_to_next.
Qed.

Lemma DictValue_leaf fuel dict h pre d1 h1 last :
  resolves order F fuel dict pre h d1 h1 →
  DictValue order F fuel dict (pre ++ [last]) h =
  match dict_get h1 d1 last with
  | None => Done (VNil, errors_New ("cannot find: " +:+ strings_Join (pre ++ [last]) ".")) h1
  | Some v => Done (v, None) h1
  end.
Proof.
  intros Hres. unfold DictValue. rewrite slice_to_init.
  pose proof (DictValue_loop_resolves fuel (pre ++ [last]) [] pre [last] [] _ _ _ _ Hres)
    as Hloop.
  rewrite app_nil_r in Hloop. simpl in Hloop. rewrite Hloop by done. simpl.
  by rewrite index_last.
Qed.

End PathFacts.

(** C3.  When the segments of [pre] resolve and the child resolver then
    finds no child for a further segment that is not the last, [DictValue]
    fails with the message that names the segments up to and including that
    one, joined by dots.  When all segments but the last resolve and the last
    is not a key of the dict reached, the message names the whole path. *)
Theorem DictValue_path_not_found order F fuel dict h pre d1 h1 :
  resolves order F fuel dict pre h d1 h1 →
  (∀ seg rest last h2,
     DictChild order F fuel d1 seg h1 = Done None h2 →
     DictValue order F fuel dict (pre ++ seg :: rest ++ [last]) h =
     Done (VNil, errors_New ("cannot find: " +:+ strings_Join (pre ++ [seg]) ".")) h2) ∧
  (∀ last,
     dict_get h1 d1 last = None →
     DictValue order F fuel dict (pre ++ [last]) h =
     Done (VNil, errors_New ("cannot find: " +:+ strings_Join (pre ++ [last]) ".")) h1).
Proof.
  intros Hres. split.
  - intros seg rest last h2 Hchild. by eapply DictValue_fails_at.
  - intros last Hget. rewrite (DictValue_leaf order F fuel dict h pre d1 h1) by done.
    by rewrite Hget.
Qed.

(** Looking up roles.publisher.features in the details of [ex_h] fails at
    "publisher". *)
Lemma DictValue_path_not_found_witness :
  ∃ d1 h1,
    resolves id ex_F 4 (Some 0) ["roles"] ex_h d1 h1 ∧
    DictChild id ex_F 4 d1 "publisher" h1 = Done None h1 ∧
    DictValue id ex_F 4 (Some 0) ["roles"; "publisher"; "features"] ex_h =
      Done (VNil, Some "cannot find: roles.publisher") h1 ∧
    dict_get h1 d1 "caller" = None ∧
    DictValue id ex_F 4 (Some 0) ["roles"; "caller"] ex_h =
      Done (VNil, Some "cannot find: roles.caller") h1.
Proof.
  eexists _, _.
  assert (Hres : ∀ r, DictChild id ex_F 4 (Some 0) "roles" ex_h = r →
            ∀ d h1, r = Done (Some d) h1 →
            resolves id ex_F 4 (Some 0) ["roles"] ex_h (Some d) h1).
  { intros r <- d h1 Hd. eapply resolves_cons; [exact Hd|apply resolves_nil]. }
  specialize (Hres _ eq_refl _ _ ltac:(vm_compute; reflexivity)).
  destruct (DictValue_path_not_found id ex_F 4 (Some 0) ex_h ["roles"] _ _ Hres)
    as [Hmid Hlast].
  split; [exact Hres|]. split; [by vm_compute|].
  split; [apply (Hmid "publisher" [] "features"); by vm_compute|].
  split; [by vm_compute|]. apply (Hlast "caller"). by vm_compute.
Defined.

(** C4.  When all segments but the last resolve and the last is a key of the
    dict reached, [DictValue] returns the value stored there and no error,
    whatever the value, nil included.  On the way, by contrast, a key that
    holds nil has no child. *)
Theorem DictValue_present_leaf order F fuel dict h pre d1 h1 last v :
  resolves order F fuel dict pre h d1 h1 →
  dict_get h1 d1 last = Some v →
  DictValue order F fuel dict (pre ++ [last]) h = Done (v, None) h1 ∧
  (v = VNil → DictChild order F fuel d1 last h1 = Done None h1).
Proof.
  intros Hres Hget. split.
  - rewrite (DictValue_leaf order F fuel dict h pre d1 h1) by done. by rewrite Hget.
  - intros ->. unfold DictChild. by rewrite Hget.
Qed.

(** The key "none" of [ex_h] holds nil: it is found as a leaf. *)
Lemma DictValue_present_leaf_witness :
  resolves id ex_F 1 (Some 0) [] ex_h (Some 0) ex_h ∧
  dict_get ex_h (Some 0) "none" = Some VNil ∧
  DictValue id ex_F 1 (Some 0) ([] ++ ["none"]) ex_h = Done (VNil, None) ex_h ∧
  (VNil = VNil → DictChild id ex_F 1 (Some 0) "none" ex_h = Done None ex_h).
Proof.
  split; [apply resolves_nil|]. split; [by vm_compute|].
  apply (DictValue_present_leaf id ex_F 1 (Some 0) ex_h [] (Some 0) ex_h "none" VNil).
  - apply resolves_nil.
  - by vm_compute.
Defined.

(** C7.  [DictFlag] hands on the error of [DictValue] when the lookup fails;
    when the lookup finds a value that is not a boolean, it fails with a
    message that names the whole path; when it finds a boolean, it returns it
    without an error. *)
Theorem DictFlag_result order F fuel dict path h :
  path ≠ [] →
  (∀ v err h', DictValue order F fuel dict path h = Done (v, Some err) h' →
     DictFlag order F fuel dict path h = Done (false, Some err) h') ∧
  (∀ v h', DictValue order F fuel dict path h = Done (v, None) h' →
     (∀ b, v ≠ VBool b) →
     DictFlag order F fuel dict path h =
     Done (false, errors_New (strings_Join path "." +:+ " is not a boolean type")) h') ∧
  (∀ b h', DictValue order F fuel dict path h = Done (VBool b, None) h' →
     DictFlag order F fuel dict path h = Done (b, None) h').
Proof.
  intros _. unfold DictFlag. split; [|split].
  - by intros v err h' ->.
  - intros v h' -> Hv. destruct v; try done. by destruct (Hv b).
  - by intros b h' ->.
Qed.

Lemma DictFlag_result_witness :
  ∃ h',
    ["roles"; "callee"; "features"; "progressive"] ≠ [] ∧
    DictValue id ex_F 4 (Some 0) ["roles"; "callee"; "features"; "progressive"] ex_h =
      Done (VString "yes", None) h' ∧
    (∀ b, VString "yes" ≠ VBool b) ∧
    DictFlag id ex_F 4 (Some 0) ["roles"; "callee"; "features"; "progressive"] ex_h =
      Done (false, Some "roles.callee.features.progressive is not a boolean type") h'.
Proof.
  eexists. split; [done|].
  assert (Hrun : ∀ r, r = DictValue id ex_F 4 (Some 0)
                            ["roles"; "callee"; "features"; "progressive"] ex_h →
                 DictValue id ex_F 4 (Some 0)
                   ["roles"; "callee"; "features"; "progressive"] ex_h = r) by done.
  specialize (Hrun _ ltac:(vm_compute; reflexivity)).
  split; [exact Hrun|]. split; [done|].
  destruct (DictFlag_result id ex_F 4 (Some 0)
              ["roles"; "callee"; "features"; "progressive"] ex_h) as (_ & Hwrong & _);
    [done|].
  by apply (Hwrong _ _ Hrun).
Defined.

(** With no segment at all, the slice expression [path[:len(path)-1]] is
    out of range. *)
Lemma DictValue_empty_path order F fuel dict h :
  DictValue order F fuel dict [] h = Panicked.
Proof. done. Qed.

Lemma seq_below (len : nat) (bound : nat) :
  len ≤ bound → Forall (λ i, i < bound) (seq 0 len).
Proof.
  intros Hle. apply Forall_forall. intros i Hi.
  apply elem_of_seq in Hi. lia.
Qed.

(** C9, amended.  On a path of at least one segment every index and slice
    expression of [DictValue] is in range: [path[:len(path)-1]], [path[i]] and
    [path[:i+1]] for each [i] the loop visits, and [path[len(path)-1]].  So
    [DictValue] never panics, and on a dict of finite depth (one from which no
    map that contains itself can be reached) it returns a value and an error
    (one of them nil). *)
Theorem DictValue_total order F path :
  path ≠ [] →
  (∀ l, order l ≡ₚ l) →
  (∃ pre last,
     path = pre ++ [last] ∧
     slice_to path (Z.of_nat (length path) - 1) = Some pre ∧
     index path (Z.of_nat (length path) - 1) = Some last ∧
     ∀ i, i < length pre →
       is_Some (index path (Z.of_nat i)) ∧ is_Some (slice_to path (Z.of_nat i + 1))) ∧
  (∀ fuel dict h, DictValue order F fuel dict path h ≠ Panicked) ∧
  (∀ n dict h,
     depth_le F h n (VDict dict) = true →
     ∃ v err h', DictValue order F n dict path h = Done (v, err) h' ∧
       (err = None ∨ v = VNil)).
Proof.
  intros Hne Hperm.
  destruct (exists_last Hne) as (pre & last & ->).
  assert (Hidx : Forall (λ i, i < length (pre ++ [last])) (seq 0 (length pre))).
  { apply seq_below. rewrite length_app. lia. }
  split; [|split].
  - exists pre, last. split; [done|]. split; [apply slice_to_init|].
    split; [apply index_last|]. intros i Hi. split.
    + rewrite index_lookup. apply lookup_lt_is_Some_2. rewrite length_app. lia.
    + replace (Z.of_nat i + 1)%Z with (Z.of_nat (S i)) by lia.
      rewrite slice_to_lookup by (rewrite length_app; lia). done.
  - intros fuel dict h. unfold DictValue. rewrite slice_to_init, index_last.
    pose proof (DictValue_loop_no_panic order F fuel _ _ dict h Hidx) as Hloop.
    destruct (DictValue_loop _ _ _ _ _ _ _) as [[[v err]|d] h'| |]; try done.
    by destruct (dict_get h' d last).
  - intros n dict h Hdepth. unfold DictValue. rewrite slice_to_init, index_last.
    destruct (DictValue_loop_total order F Hperm n _ _ dict h Hidx Hdepth)
      as (r & h' & Hloop & Hnil).
    rewrite Hloop. destruct r as [[v err]|d].
    + exists v, err, h'. split; [done|]. right. by eapply Hnil.
    + destruct (dict_get h' d last) as [v|].
      * exists v, None, h'. split; [done|by left].
      * eexists _, _, h'. split; [done|by right].
Qed.

Lemma DictValue_total_witness :
  ["roles"; "callee"; "features"; "call_timeout"] ≠ [] ∧
  (∀ l : list (string * value), id l ≡ₚ l) ∧
  depth_le ex_F ex_h 5 (VDict (Some 0)) = true ∧
  ∃ v err h',
    DictValue id ex_F 5 (Some 0) ["roles"; "callee"; "features"; "call_timeout"] ex_h =
      Done (v, err) h' ∧
    (err = None ∨ v = VNil).
Proof.
  split; [done|]. split; [done|]. split; [by vm_compute|].
  destruct (DictValue_total id ex_F ["roles"; "callee"; "features"; "call_timeout"])
    as (_ & _ & Htotal); [done|done|].
  apply Htotal. by vm_compute.
Defined.

(** C10.  Reading through a nil dict is reading an empty dict: it has no
    child, a path is not found in it (at its first segment), and an option has
    its default. *)
Theorem nil_dict_reads order F float_oob fuel h key seg rest name :
  DictChild order F fuel None key h = Done None h ∧
  DictValue order F fuel None (seg :: rest) h =
    Done (VNil, errors_New ("cannot find: " +:+ seg)) h ∧
  OptionString h None name = "" ∧
  OptionInt64 float_oob h None name = 0%Z ∧
  OptionFlag h None name = false.
Proof.
  split; [done|]. split; [|done].
  destruct (decide (rest = [])) as [->|Hne].
  - done.
  - destruct (exists_last Hne) as (mid & last & ->).
    exact (DictValue_fails_at order F fuel None h [] None h seg mid last h
             (resolves_nil _ _ _ _ _) eq_refl).
Qed.

(** ** Options *)

Lemma int64_of_Z_id n : (- 2 ^ 63 ≤ n < 2 ^ 63)%Z → int64_of_Z n = n.
Proof. intros Hn. unfold int64_of_Z. rewrite Z.mod_small; lia. Qed.

Lemma int64_of_Z_range n : (- 2 ^ 63 ≤ int64_of_Z n < 2 ^ 63)%Z.
Proof.
  unfold int64_of_Z. pose proof (Z.mod_pos_bound (n + 2 ^ 63) (2 ^ 64)). lia.
Qed.

(** What [OptionInt64] does on each kind of stored value. *)
Lemma OptionInt64_cases float_oob h opts name :
  OptionInt64 float_oob h opts name =
  match dict_get h opts name with
  | Some (VInteger k n) => if converted k then int64_of_Z n else 0%Z
  | Some (VFloat64 f) => int64_of_float float_oob f
  | _ => 0%Z
  end.
Proof.
  unfold OptionInt64. destruct (dict_get h opts name) as [[| |k n| | | | | |]|]; try done.
  by destruct k.
Qed.

(** A float with an integer part in range converts to that part: 5.9 to 5,
    -5.9 to -5. *)
Lemma int64_of_float_trunc float_oob f z :
  float_trunc f = Some z → (- 2 ^ 63 ≤ z < 2 ^ 63)%Z → int64_of_float float_oob f = z.
Proof.
  intros Hf Hz. unfold int64_of_float. rewrite Hf.
  by rewrite bool_decide_eq_true_2.
Qed.

Lemma float_trunc_5_9 :
  float_trunc (S754_finite false 0x1799999999999A (-50)) = Some 5%Z ∧
  float_trunc (S754_finite true 0x1799999999999A (-50)) = Some (-5)%Z.
Proof. split; by vm_compute. Qed.

(** C1, at an [int64].  The type switch of [OptionInt64] has no case for
    [int64] (nor for the 8 and 16 bit kinds and [float32]): an option stored
    as [int64(5)] reads as 0. *)
Theorem OptionInt64_int64_is_dropped float_oob :
  OptionInt64 float_oob [ {[ "timeout" := VInteger Int64 5 ]} ] (Some 0) "timeout" = 0%Z.
Proof. by vm_compute. Qed.

(** ** The mutator *)

(** C8.  On the nil dict [SetOption] makes a new dict, at a location not
    in use, that holds the one entry and leaves the existing dicts as they
    are.  On a dict at [l] it sets the entry in the table at [l] itself, so
    that every holder of [l] sees it, changes no other dict, and returns [l]. *)
Theorem SetOption_result name val h l m :
  h !! l = Some m →
  SetOption None name val h = Done (Some (length h)) (h ++ [ {[ name := val ]} ]) ∧
  h !! length h = None ∧
  SetOption (Some l) name val h = Done (Some l) (<[l := <[name := val]> m]> h) ∧
  dict_get (<[l := <[name := val]> m]> h) (Some l) name = Some val ∧
  (∀ l', l' ≠ l → (<[l := <[name := val]> m]> h) !! l' = h !! l').
Proof.
  intros Hm. pose proof (lookup_lt_Some _ _ _ Hm) as Hlt.
  split; [|split; [|split; [|split]]].
  - unfold SetOption, dict_new, dict_set, deref.
    rewrite list_lookup_middle by done. simpl.
    rewrite insert_app_r_alt by lia. rewrite Nat.sub_diag. simpl.
    by rewrite insert_empty.
  - by apply lookup_ge_None.
  - unfold SetOption, dict_set, deref. by rewrite Hm.
  - simpl. unfold deref. rewrite list_lookup_insert_eq by done. simpl.
    by rewrite lookup_insert_eq.
  - intros l' Hne. by rewrite list_lookup_insert_ne.
Qed.

Lemma SetOption_result_witness :
  ex_h !! 1 = Some {[ "call_timeout" := VBool true; "progressive" := VString "yes" ]} ∧
  SetOption None "k" (VInteger Int 1) ex_h =
    Done (Some 2) (ex_h ++ [ {[ "k" := VInteger Int 1 ]} ]) ∧
  ex_h !! 2 = None ∧
  SetOption (Some 1) "k" (VInteger Int 2) ex_h =
    Done (Some 1)
         (<[1 := <["k" := VInteger Int 2]>
                   {[ "call_timeout" := VBool true; "progressive" := VString "yes" ]}]> ex_h).
Proof.
  split; [done|].
  destruct (SetOption_result "k" (VInteger Int 1) ex_h 1 _ eq_refl) as (Hnew & Hfresh & _).
  destruct (SetOption_result "k" (VInteger Int 2) ex_h 1 _ eq_refl) as (_ & _ & Hset & _).
  split; [exact Hnew|]. split; [exact Hfresh|]. exact Hset.
Defined.

(** ** The examples of the specification *)

Example NormalizeDict_of_number :
  NormalizeDict id [] 1 (VInteger Int 42) [] = Done None [].
Proof. reflexivity. Qed.

Example NormalizeDict_of_string :
  NormalizeDict id [] 1 (VString "abc") [] = Done None [].
Proof. reflexivity. Qed.

Example NormalizeDict_of_empty_map :
  NormalizeDict id [ [] ] 1 (VMap (Some 0)) [] = Done (Some 0) [ ∅ ].
Proof. reflexivity. Qed.

Example NormalizeDict_of_nil_map :
  NormalizeDict id [] 1 (VMap None) [] = Done (Some 0) [ ∅ ].
Proof. reflexivity. Qed.

(** Of the three keys of the map under "roles" only the string survives. *)
Example NormalizeDict_drops_keys :
  ∃ h', NormalizeDict id ex_F 4 (VMap (Some 0)) ex_h = Done (Some 2) h' ∧
        dom <$> h' !! 2 = Some ({[ "callee" ]} : gset string).
Proof. eexists. split; by vm_compute. Qed.

Example DictChild_of_nil_value :
  DictChild id [] 1 (Some 0) "a" [ {[ "a" := VNil ]} ] = Done None [ {[ "a" := VNil ]} ].
Proof. by vm_compute. Qed.

Example DictValue_call_timeout :
  ∃ h', DictValue id ex_F 4 (Some 0) ["roles"; "callee"; "features"; "call_timeout"] ex_h
        = Done (VBool true, None) h'.
Proof. eexists. by vm_compute. Qed.

Example DictFlag_call_timeout :
  ∃ h', DictFlag id ex_F 4 (Some 0) ["roles"; "callee"; "features"; "call_timeout"] ex_h
        = Done (true, None) h'.
Proof. eexists. by vm_compute. Qed.

Example OptionInt64_of_absent float_oob : OptionInt64 float_oob [ ∅ ] (Some 0) "timeout" = 0%Z.
Proof. by vm_compute. Qed.

Example OptionInt64_of_float float_oob :
  OptionInt64 float_oob
    [ {[ "timeout" := VFloat64 (S754_finite false 0x1799999999999A (-50)) ]} ]
    (Some 0) "timeout" = 5%Z.
Proof. by vm_compute. Qed.

Example OptionInt64_of_uint64 float_oob :
  OptionInt64 float_oob [ {[ "n" := VInteger Uint64 (2 ^ 64 - 1) ]} ] (Some 0) "n" = (-1)%Z.
Proof. by vm_compute. Qed.

Example OptionString_of_absent : OptionString [ ∅ ] (Some 0) "x" = "".
Proof. by vm_compute. Qed.

Example OptionFlag_of_string :
  OptionFlag [ {[ "x" := VString "true" ]} ] (Some 0) "x" = false.
Proof. by vm_compute. Qed.

(** * Further properties *)

(** ** What a lookup leaves behind and what its errors look like *)

Section LookupFacts.

Variable order : list (string * value) → list (string * value).
Variable F : fstore.

Lemma DictValue_loop_incl fuel path idx dict h r h' :
  DictValue_loop order F fuel path idx dict h = Done r h' → heap_incl h h'.
Proof.
  revert dict h. induction idx as [|i idx IH]; intros dict h Hrun.
  - injection Hrun as <- <-. apply heap_incl_refl.
  - simpl in Hrun. destruct (index path (Z.of_nat i)) as [seg|]; [|done].
    destruct (DictChild order F fuel dict seg h) as [[d|] h1| |] eqn:Hchild; try done.
    + eapply heap_incl_trans; [by eapply DictChild_incl|by eapply IH].
    + destruct (slice_to path (Z.of_nat i + 1)); [|done].
      injection Hrun as <- <-. by eapply DictChild_incl.
Qed.

Lemma DictValue_incl fuel dict path h r h' :
  DictValue order F fuel dict path h = Done r h' → heap_incl h h'.
Proof.
  unfold DictValue. intros Hrun.
  destruct (slice_to path _) as [pre|]; [|done].
  destruct (DictValue_loop _ _ _ _ _ _ _) as [[early|d] h1| |] eqn:Hloop; try done.
  - injection Hrun as <- <-. by eapply DictValue_loop_incl.
  - destruct (index path _) as [last|]; [|done].
    destruct (dict_get h1 d last); injection Hrun as <- <-;
      by eapply DictValue_loop_incl.
Qed.

Lemma slice_to_take {A} (s pre : list A) (i : nat) :
  slice_to s (Z.of_nat i + 1) = Some pre → S i ≤ length s ∧ pre = take (S i) s.
Proof.
  unfold slice_to. case_bool_decide as Hi; [|done]. intros [= <-].
  replace (Z.to_nat (Z.of_nat i + 1)) with (S i) by lia. split; [lia|done].
Qed.

(** An early return of the loop carries nil and names a prefix of the
    path. *)
Lemma DictValue_loop_early fuel path idx dict h v err h' :
  DictValue_loop order F fuel path idx dict h = Done (inl (v, err)) h' →
  v = VNil ∧
  ∃ k, 1 ≤ k ≤ length path ∧
    err = errors_New ("cannot find: " +:+ strings_Join (take k path) ".").
Proof.
  revert dict h. induction idx as [|i idx IH]; intros dict h Hrun; [done|].
  simpl in Hrun. destruct (index path (Z.of_nat i)) as [seg|]; [|done].
  destruct (DictChild order F fuel dict seg h) as [[d|] h1| |]; try done.
  - by eapply IH.
  - destruct (slice_to path (Z.of_nat i + 1)) as [pre|] eqn:Hpre; [|done].
    apply slice_to_take in Hpre as [Hlen ->].
    injection Hrun as <- <- <-. split; [done|]. exists (S i). split; [lia|done].
Qed.

End LookupFacts.

(** X1.  Whatever [DictValue] returns, it has changed no dict that existed
    before the call: the store it leaves is the old one with, at most, new
    dicts appended.  [DictFlag] returns with that same store. *)
Theorem DictValue_keeps_dicts order F fuel dict path h r h' :
  DictValue order F fuel dict path h = Done r h' →
  h `prefix_of` h' ∧
  ∃ flag, DictFlag order F fuel dict path h = Done flag h'.
Proof.
  intros Hrun. split; [by eapply heap_incl_prefix, DictValue_incl|].
  unfold DictFlag. rewrite Hrun. destruct r as [v [err|]]; [by eexists|].
  destruct v; by eexists.
Qed.

Lemma DictValue_keeps_dicts_witness :
  ∃ r h',
    DictValue id ex_F 4 (Some 0) ["roles"; "callee"; "features"; "call_timeout"] ex_h
      = Done r h' ∧
    ex_h `prefix_of` h' ∧
    ∃ flag, DictFlag id ex_F 4 (Some 0) ["roles"; "callee"; "features"; "call_timeout"] ex_h
            = Done flag h'.
Proof.
  eexists _, _.
  assert (Hrun : ∀ r, r = DictValue id ex_F 4 (Some 0)
                            ["roles"; "callee"; "features"; "call_timeout"] ex_h →
                 DictValue id ex_F 4 (Some 0)
                   ["roles"; "callee"; "features"; "call_timeout"] ex_h = r) by done.
  specialize (Hrun _ ltac:(vm_compute; reflexivity)).
  split; [exact Hrun|].
  exact (DictValue_keeps_dicts id ex_F 4 (Some 0) _ ex_h _ _ Hrun).
Defined.

(** X2.  An error of [DictValue] always comes with the nil value, and its
    message is "cannot find: " followed by the first [k] segments of the path
    joined by dots, for some [k] between 1 and the length of the path.  A
    value returned without an error is stored under the last segment in a dict
    of the store the call leaves. *)
Theorem DictValue_outcome order F fuel dict path h v err h' :
  DictValue order F fuel dict path h = Done (v, err) h' →
  match err with
  | Some msg =>
      v = VNil ∧
      ∃ k, 1 ≤ k ≤ length path ∧
        msg = "cannot find: " +:+ strings_Join (take k path) "."
  | None =>
      ∃ d pre last, path = pre ++ [last] ∧ dict_get h' d last = Some v
  end.
Proof.
  unfold DictValue. intros Hrun.
  destruct (decide (path = [])) as [->|Hne]; [done|].
  destruct (exists_last Hne) as (pre & last & ->).
  rewrite slice_to_init, index_last in Hrun.
  destruct (DictValue_loop _ _ _ _ _ _ _) as [[[v0 err0]|d] h1| |] eqn:Hloop; try done.
  - injection Hrun as <- <- <-.
    apply DictValue_loop_early in Hloop as (-> & k & Hk & ->). simpl. eauto.
  - destruct (dict_get h1 d last) as [x|] eqn:Hget; injection Hrun as <- <- <-.
    + by exists d, pre, last.
    + split; [done|]. exists (length (pre ++ [last])). split.
      * rewrite length_app. simpl. lia.
      * by rewrite take_ge.
Qed.

Lemma DictValue_outcome_witness :
  ∃ h',
    DictValue id ex_F 4 (Some 0) ["roles"; "publisher"; "features"] ex_h
      = Done (VNil, Some "cannot find: roles.publisher") h' ∧
    VNil = VNil ∧
    ∃ k, 1 ≤ k ≤ length ["roles"; "publisher"; "features"] ∧
      "cannot find: roles.publisher" =
      "cannot find: " +:+ strings_Join (take k ["roles"; "publisher"; "features"]) ".".
Proof.
  eexists.
  assert (Hrun : ∀ r, r = DictValue id ex_F 4 (Some 0)
                            ["roles"; "publisher"; "features"] ex_h →
                 DictValue id ex_F 4 (Some 0)
                   ["roles"; "publisher"; "features"] ex_h = r) by done.
  specialize (Hrun _ ltac:(vm_compute; reflexivity)).
  split; [exact Hrun|].
  exact (DictValue_outcome id ex_F 4 (Some 0) _ ex_h _ _ _ Hrun).
Defined.

(** X3.  [DictFlag] reports a flag as set only when the lookup ended on a
    key that holds the boolean true: with any error the flag is false, and a
    true flag comes without an error and is stored under the last segment. *)
Theorem DictFlag_true_is_stored order F fuel dict path h flag err h' :
  DictFlag order F fuel dict path h = Done (flag, err) h' →
  (err ≠ None → flag = false) ∧
  (flag = true →
     err = None ∧
     ∃ d pre last, path = pre ++ [last] ∧ dict_get h' d last = Some (VBool true)).
Proof.
  unfold DictFlag. intros Hrun.
  destruct (DictValue order F fuel dict path h) as [[v [e|]] h1| |] eqn:Hval; try done.
  - injection Hrun as <- <- <-. done.
  - pose proof (DictValue_outcome _ _ _ _ _ _ _ _ _ Hval) as Hout. simpl in Hout.
    destruct v; injection Hrun as <- <- <-; try done.
    split; [done|]. intros ->. done.
Qed.

Lemma DictFlag_true_is_stored_witness :
  ∃ h',
    DictFlag id ex_F 4 (Some 0) ["roles"; "callee"; "features"; "call_timeout"] ex_h
      = Done (true, None) h' ∧
    ((None : error) ≠ None → true = false) ∧
    (true = true →
       (None : error) = None ∧
       ∃ d pre last,
         ["roles"; "callee"; "features"; "call_timeout"] = pre ++ [last] ∧
         dict_get h' d last = Some (VBool true)).
Proof.
  eexists.
  assert (Hrun : ∀ r, r = DictFlag id ex_F 4 (Some 0)
                            ["roles"; "callee"; "features"; "call_timeout"] ex_h →
                 DictFlag id ex_F 4 (Some 0)
                   ["roles"; "callee"; "features"; "call_timeout"] ex_h = r) by done.
  specialize (Hrun _ ltac:(vm_compute; reflexivity)).
  split; [exact Hrun|].
  exact (DictFlag_true_is_stored id ex_F 4 (Some 0) _ ex_h _ _ _ Hrun).
Defined.

(** X4.  [DictValue] and [DictFlag] panic on the empty path, whatever the
    dict, and on no other path. *)
Theorem lookup_panics_on_empty_path order F fuel dict path h :
  (DictValue order F fuel dict path h = Panicked ↔ path = []) ∧
  (DictFlag order F fuel dict path h = Panicked ↔ path = []).
Proof.
  assert (Hval : DictValue order F fuel dict path h = Panicked ↔ path = []).
  { split; [|by intros ->].
    intros Hpanic. destruct (decide (path = [])) as [|Hne]; [done|exfalso].
    destruct (exists_last Hne) as (pre & last & ->).
    unfold DictValue in Hpanic. rewrite slice_to_init, index_last in Hpanic.
    assert (Hidx : Forall (λ i, i < length (pre ++ [last])) (seq 0 (length pre))).
    { apply seq_below. rewrite length_app. lia. }
    pose proof (DictValue_loop_no_panic order F fuel _ _ dict h Hidx) as Hloop.
    destruct (DictValue_loop _ _ _ _ _ _ _) as [[[v err]|d] h'| |]; try done.
    by destruct (dict_get h' d last). }
  split; [done|]. rewrite <- Hval. unfold DictFlag.
  destruct (DictValue order F fuel dict path h) as [[v [e|]] h1| |]; try done.
  by destruct v.
Qed.

(** ** Normalized dicts *)

Lemma canonical_reaches h n lo v l :
  canonical h n lo v → reaches h v l → lo ≤ l ∧ is_Some (h !! l).
Proof.
  intros Hcan Hreach. revert n lo Hcan.
  induction Hreach as [l|l m k x l' Hm Hk _ IH]; intros n lo Hcan.
  - destruct n; [done|]. simpl in Hcan. destruct Hcan as [Hlo (m & -> & _)]. eauto.
  - destruct n; [done|]. simpl in Hcan. destruct Hcan as [Hlo (m' & Hm' & Hall)].
    rewrite Hm in Hm'. injection Hm' as <-.
    destruct (IH n (S l) (Hall k x Hk)) as [Hle Hsome]. split; [lia|done].
Qed.

(** X5.  [NormalizeDict] copies in depth: every dict that can be reached
    from the dict it returns was made by the call; none of them is a dict that
    existed before, so writing to the result never writes to the argument. *)
Theorem NormalizeDict_copies_deep order F n v h d h' l :
  NormalizeDict order F n v h = Done (Some d) h' →
  reaches h' (VDict (Some d)) l →
  h !! l = None ∧ is_Some (h' !! l).
Proof.
  intros Hrun Hreach.
  destruct (NormalizeDict_spec order F n _ _ _ _ Hrun) as (_ & _ & Hcan).
  destruct (canonical_reaches _ _ _ _ _ Hcan Hreach) as [Hle Hsome].
  split; [by apply lookup_ge_None|done].
Qed.

Lemma NormalizeDict_copies_deep_witness :
  ∃ h',
    NormalizeDict id ex_F 5 (VDict (Some 0)) ex_h = Done (Some 2) h' ∧
    reaches h' (VDict (Some 2)) 4 ∧
    ex_h !! 4 = None ∧ is_Some (h' !! 4).
Proof.
  eexists.
  assert (Hrun : ∀ r, r = NormalizeDict id ex_F 5 (VDict (Some 0)) ex_h →
                 NormalizeDict id ex_F 5 (VDict (Some 0)) ex_h = r) by done.
  specialize (Hrun _ ltac:(vm_compute; reflexivity)).
  match type of Hrun with
  | _ = Done _ ?h1 =>
      assert (Hreach : reaches h1 (VDict (Some 2)) 4)
        by (eapply (reaches_step _ 2 _ "roles");
            [vm_compute; reflexivity|vm_compute; reflexivity|apply reaches_here])
  end.
  split; [exact Hrun|]. split; [exact Hreach|].
  exact (NormalizeDict_copies_deep id ex_F 5 _ ex_h 2 _ 4 Hrun Hreach).
Defined.

Section CanonicalFacts.

Variable order : list (string * value) → list (string * value).
Variable F : fstore.

(** In a canonical dict the child resolver finds dicts only, and has
    nothing to convert. *)
Lemma DictChild_canonical fuel n lo dict key h :
  canonical h n lo (VDict dict) →
  ∃ r, DictChild order F (S fuel) dict key h = Done r h ∧
    (r = None ∨ ∃ n' lo', canonical h n' lo' (VDict r)).
Proof.
  intros Hcan. destruct n as [|n]; [done|]. destruct dict as [l|]; [|done].
  simpl in Hcan. destruct Hcan as [_ (m & Hm & Hall)].
  unfold DictChild. simpl. unfold deref. rewrite Hm. simpl.
  destruct (m !! key) as [x|] eqn:Hx; [|by eauto].
  specialize (Hall key x Hx). simpl in Hall.
  destruct x as [| | | | | |[c|]|c|];
    try (exists None; split; [done|by left]);
    try by (destruct n; simpl in Hall; destruct Hall).
  exists (Some c). split; [done|]. right. by exists n, (S l).
Qed.

Lemma DictValue_loop_canonical fuel path idx n lo dict h :
  Forall (λ i, i < length path) idx →
  canonical h n lo (VDict dict) →
  ∃ r, DictValue_loop order F (S fuel) path idx dict h = Done r h.
Proof.
  intros Hidx. revert n lo dict.
  induction Hidx as [|i idx Hi _ IH]; intros n lo dict Hcan; [by eexists|].
  cbn [DictValue_loop]. rewrite index_lookup.
  destruct (lookup_lt_is_Some_2 path i Hi) as [seg ->].
  destruct (DictChild_canonical fuel n lo dict seg h Hcan) as (r & -> & Hr).
  destruct r as [d|].
  - destruct Hr as [|(n' & lo' & Hcan')]; [done|]. by eapply IH.
  - replace (Z.of_nat i + 1)%Z with (Z.of_nat (S i)) by lia.
    rewrite slice_to_lookup by lia. by eexists.
Qed.

End CanonicalFacts.

(** X6.  Once a dict has been normalized, looking a path up in it
    allocates nothing and converts nothing: [DictValue] returns, however deep
    the dict is, and leaves the store exactly as it was. *)
Theorem DictValue_after_NormalizeDict order F n x h d h1 fuel path :
  NormalizeDict order F n x h = Done (Some d) h1 →
  path ≠ [] →
  ∃ v err, DictValue order F (S fuel) (Some d) path h1 = Done (v, err) h1.
Proof.
  intros Hrun Hne.
  destruct (NormalizeDict_spec order F n _ _ _ _ Hrun) as (_ & _ & Hcan).
  simpl in Hcan.
  destruct (exists_last Hne) as (pre & last & ->).
  unfold DictValue. rewrite slice_to_init, index_last.
  destruct (DictValue_loop_canonical order F fuel (pre ++ [last]) (seq 0 (length pre))
              n (length h) (Some d) h1) as (r & ->); [|done|].
  { apply seq_below. rewrite length_app. lia. }
  destruct r as [[v err]|d']; [by eexists _, _|].
  destruct (dict_get h1 d' last); by eexists _, _.
Qed.

Lemma DictValue_after_NormalizeDict_witness :
  ∃ h1,
    NormalizeDict id ex_F 5 (VDict (Some 0)) ex_h = Done (Some 2) h1 ∧
    ["roles"; "callee"; "features"; "call_timeout"] ≠ [] ∧
    ∃ v err,
      DictValue id ex_F 1 (Some 2) ["roles"; "callee"; "features"; "call_timeout"] h1
        = Done (v, err) h1.
Proof.
  eexists.
  assert (Hrun : ∀ r, r = NormalizeDict id ex_F 5 (VDict (Some 0)) ex_h →
                 NormalizeDict id ex_F 5 (VDict (Some 0)) ex_h = r) by done.
  specialize (Hrun _ ltac:(vm_compute; reflexivity)).
  split; [exact Hrun|]. split; [done|].
  exact (DictValue_after_NormalizeDict id ex_F 5 _ ex_h 2 _ 0
           ["roles"; "callee"; "features"; "call_timeout"] Hrun ltac:(done)).
Defined.

(** X7.  [DictChild] does not keep what it converts.  For a key that holds
    a map of another type it returns a new dict and leaves the key holding the
    map; a second call converts again and returns another new dict. *)
Theorem DictChild_converts_each_time order F n dict key m h r h1 :
  dict_get h dict key = Some (VMap m) →
  DictChild order F n dict key h = Done r h1 →
  r = Some (length h) ∧
  h !! length h = None ∧
  dict_get h1 dict key = Some (VMap m) ∧
  ∀ r2 h2, DictChild order F n dict key h1 = Done r2 h2 →
    r2 = Some (length h1) ∧ r2 ≠ r.
Proof.
  intros Hget Hrun.
  assert (Hconv : ∀ h0 r0 h0', dict_get h0 dict key = Some (VMap m) →
            DictChild order F n dict key h0 = Done r0 h0' →
            r0 = Some (length h0) ∧ length h0 < length h0' ∧ heap_incl h0 h0').
  { intros h0 r0 h0' Hg Hr. unfold DictChild in Hr. rewrite Hg in Hr.
    destruct (NormalizeDict_spec order F n _ _ _ _ Hr) as (Hincl & [-> Hlt] & _).
    done. }
  destruct (Hconv _ _ _ Hget Hrun) as (-> & Hlt & Hincl).
  split; [done|]. split; [by apply lookup_ge_None|].
  assert (Hget1 : dict_get h1 dict key = Some (VMap m)) by by eapply dict_get_incl.
  split; [done|]. intros r2 h2 Hrun2.
  destruct (Hconv _ _ _ Hget1 Hrun2) as (-> & _ & _).
  split; [done|]. intros [= Heq]. lia.
Qed.

Lemma DictChild_converts_each_time_witness :
  ∃ h1,
    dict_get ex_h (Some 0) "roles" = Some (VMap (Some 0)) ∧
    DictChild id ex_F 4 (Some 0) "roles" ex_h = Done (Some 2) h1 ∧
    Some 2 = Some (length ex_h) ∧
    ex_h !! length ex_h = None ∧
    dict_get h1 (Some 0) "roles" = Some (VMap (Some 0)) ∧
    ∀ r2 h2, DictChild id ex_F 4 (Some 0) "roles" h1 = Done r2 h2 →
      r2 = Some (length h1) ∧ r2 ≠ Some 2.
Proof.
  eexists.
  assert (Hrun : ∀ r, r = DictChild id ex_F 4 (Some 0) "roles" ex_h →
                 DictChild id ex_F 4 (Some 0) "roles" ex_h = r) by done.
  specialize (Hrun _ ltac:(vm_compute; reflexivity)).
  split; [by vm_compute|]. split; [exact Hrun|].
  exact (DictChild_converts_each_time id ex_F 4 (Some 0) "roles" (Some 0) ex_h _ _
           ltac:(by vm_compute) Hrun).
Defined.

(** ** Dicts that contain themselves *)

Lemma reaches_trans h v l l' :
  reaches h v l → reaches h (VDict (Some l)) l' → reaches h v l'.
Proof.
  induction 1 as [l|l0 m k x l Hm Hk _ IH]; intros Hl'; [done|].
  eapply reaches_step; [done|done|by apply IH].
Qed.

(** A dict on a cycle holds a dict that is on a cycle. *)
Lemma cycle_step h l m k x :
  h !! l = Some m → m !! k = Some x → reaches h x l →
  ∃ l1 m1 k1 x1,
    x = VDict (Some l1) ∧
    h !! l1 = Some m1 ∧ m1 !! k1 = Some x1 ∧ reaches h x1 l1.
Proof.
  intros Hm Hk Hreach.
  assert (Hback : ∀ l1, x = VDict (Some l1) → reaches h (VDict (Some l)) l1).
  { intros l1 ->. eapply reaches_step; [done|done|apply reaches_here]. }
  inversion Hreach as [l0 Hx|l1 m1 k1 x1 l0 Hm1 Hk1 Hreach1 Hx]; subst.
  - exists l, m, k, (VDict (Some l)). done.
  - exists l1, m1, k1, x1. split; [done|]. split; [done|]. split; [done|].
    eapply reaches_trans; [done|by apply Hback].
Qed.

Section CycleFacts.

Variable order : list (string * value) → list (string * value).
Variable F : fstore.
Hypothesis order_perm : ∀ l, order l ≡ₚ l.

Lemma NormalizeDict_loop_stuck n rec dict es h0 h1 target :
  rec_spec n rec →
  (∀ cv h, rec cv h ≠ Panicked) →
  (∀ h, heap_incl h0 h → rec target h = OutOfFuel) →
  heap_incl h0 h1 →
  length h0 ≤ dict →
  (∃ key s, (key, target) ∈ es ∧ key_String key = Some s) →
  NormalizeDict_loop rec dict es h1 = OutOfFuel.
Proof.
  intros Hrec Hpanic Hstuck. revert h1.
  induction es as [|[key cv] es IH]; intros h1 Hincl Hle (key0 & s0 & Hin & Hkey0).
  - by apply elem_of_nil in Hin.
  - rewrite NormalizeDict_loop_cons.
    apply elem_of_cons in Hin as [[= <- <-]|Hin].
    + rewrite Hkey0. by rewrite Hstuck.
    + destruct (key_String key) as [s|]; [|apply IH; eauto].
      specialize (Hpanic cv h1).
      destruct (rec cv h1) as [r h'| |] eqn:Hcv; try done.
      destruct (Hrec _ _ _ _ Hcv) as (Hincl' & _).
      apply IH; [|done|eauto].
      apply heap_incl_dict_set; [|done]. by eapply heap_incl_trans.
Qed.

Lemma NormalizeDict_stuck n : ∀ h l m k x h',
  h !! l = Some m → m !! k = Some x → reaches h x l →
  heap_incl h h' →
  NormalizeDict order F n (VDict (Some l)) h' = OutOfFuel.
Proof.
  induction n as [|n IH]; intros h l m k x h' Hm Hk Hreach Hincl; [done|].
  rewrite NormalizeDict_map by done.
  destruct (cycle_step _ _ _ _ _ Hm Hk Hreach) as (l1 & m1 & k1 & x1 & -> & Hm1 & Hk1 & Hr1).
  rewrite (NormalizeDict_loop_stuck n _ _ _ h _ (VDict (Some l1))); [done|..].
  - apply NormalizeDict_spec.
  - apply NormalizeDict_no_panic.
  - intros h0 Hincl0. by eapply IH.
  - eapply heap_incl_trans; [done|apply heap_incl_app].
  - by apply heap_incl_length.
  - exists (Plain (KStr "string" k)), k. split; [|done].
    simpl. unfold deref. rewrite (Hincl _ _ Hm). simpl.
    apply (list_elem_of_fmap_2 (λ kv : string * value, (Plain (KStr "string" kv.1), kv.2))
             _ (k, VDict (Some l1))).
    rewrite order_perm. by apply elem_of_map_to_list.
Qed.

End CycleFacts.

(** X8.  On a dict that can be reached from one of its own values the
    recursion of [NormalizeDict] never ends: no amount of fuel makes the call
    return.  (In Go the call overflows the stack.) *)
Theorem NormalizeDict_cycle_diverges order F h l m k x :
  (∀ es, order es ≡ₚ es) →
  h !! l = Some m → m !! k = Some x → reaches h x l →
  ∀ n, NormalizeDict order F n (VDict (Some l)) h = OutOfFuel.
Proof.
  intros Hperm Hm Hk Hreach n.
  eapply NormalizeDict_stuck; [done|done|done|done|apply heap_incl_refl].
Qed.

Lemma NormalizeDict_cycle_diverges_witness :
  (∀ es : list (string * value), id es ≡ₚ es) ∧
  ex_cycle !! 0 = Some {[ "a" := VDict (Some 1) ]} ∧
  ({[ "a" := VDict (Some 1) ]} : gmap string value) !! "a" = Some (VDict (Some 1)) ∧
  reaches ex_cycle (VDict (Some 1)) 0 ∧
  ∀ n, NormalizeDict id [] n (VDict (Some 0)) ex_cycle = OutOfFuel.
Proof.
  assert (Hreach : reaches ex_cycle (VDict (Some 1)) 0).
  { eapply (reaches_step _ 1 _ "b"); [reflexivity|reflexivity|apply reaches_here]. }
  split; [done|]. split; [done|]. split; [done|]. split; [exact Hreach|].
  exact (NormalizeDict_cycle_diverges id [] ex_cycle 0 _ "a" _
           ltac:(done) eq_refl eq_refl Hreach).
Defined.

(** A map of another type that holds itself under a string key is as bad. *)
Lemma NormalizeDict_stuck_map order F l es key s :
  F !! l = Some es → (key, VMap (Some l)) ∈ es → key_String key = Some s →
  ∀ n h, NormalizeDict order F n (VMap (Some l)) h = OutOfFuel.
Proof.
  intros HF Hin Hkey. induction n as [|n IH]; intros h; [done|].
  rewrite NormalizeDict_map by done. simpl. rewrite HF. simpl.
  rewrite (NormalizeDict_loop_stuck n _ _ _ [] _ (VMap (Some l))); [done|..].
  - apply NormalizeDict_spec.
  - apply NormalizeDict_no_panic.
  - intros h0 _. apply IH.
  - by intros i m.
  - simpl. lia.
  - eauto.
Qed.

(** The two dicts of [ex_cycle] hold each other: the dict at 0 is
    map-shaped, and [NormalizeDict] returns neither nil nor a dict for it,
    with whatever fuel. *)
Lemma NormalizeDict_cycle_counterexample :
  Kind_is_Map (VDict (Some 0)) = true ∧
  ¬ ∃ n r h', NormalizeDict id [] n (VDict (Some 0)) ex_cycle = Done r h'.
Proof.
  split; [done|]. intros (n & r & h' & Hrun).
  assert (Hreach : reaches ex_cycle (VDict (Some 1)) 0).
  { eapply (reaches_step _ 1 _ "b"); [reflexivity|reflexivity|apply reaches_here]. }
  rewrite (NormalizeDict_stuck id [] ltac:(done) n ex_cycle 0 _ "a" _ ex_cycle
             eq_refl eq_refl Hreach (heap_incl_refl _)) in Hrun.
  discriminate.
Qed.

(** In [ex_h_self] the key "a" holds a map that holds itself under "b":
    the path a.b is not empty, and [DictValue] returns neither a value nor an
    error for it, with whatever fuel. *)
Lemma DictValue_self_map_counterexample :
  ["a"; "b"] ≠ [] ∧
  ¬ ∃ fuel v err h',
      DictValue id ex_F_self fuel (Some 0) ["a"; "b"] ex_h_self = Done (v, err) h'.
Proof.
  split; [done|]. intros (fuel & v & err & h' & Hrun).
  unfold DictValue in Hrun. simpl in Hrun. unfold DictChild in Hrun.
  change (dict_get ex_h_self (Some 0) "a") with (Some (VMap (Some 0))) in Hrun.
  cbv beta iota in Hrun.
  rewrite (NormalizeDict_stuck_map id ex_F_self 0 _ (Plain (KStr "string" "b")) "b"
             eq_refl ltac:(by apply list_elem_of_here) eq_refl) in Hrun.
  discriminate.
Qed.

(** ** What the new dict holds *)

Section ContentFacts.

Variable order : list (string * value) → list (string * value).
Variable F : fstore.

Lemma NormalizeDict_loop_app rec dict es1 es2 h :
  NormalizeDict_loop rec dict (es1 ++ es2) h =
  match NormalizeDict_loop rec dict es1 h with
  | Done _ h1 => NormalizeDict_loop rec dict es2 h1
  | Panicked => Panicked
  | OutOfFuel => OutOfFuel
  end.
Proof.
  revert h. induction es1 as [|[key cv] es1 IH]; intros h; [done|].
  rewrite <- app_comm_cons, !NormalizeDict_loop_cons.
  destruct (key_String key); [|done]. by destruct (rec cv h).
Qed.

(** Entries whose key is not the string [s] leave the entry under [s]
    alone. *)
Lemma NormalizeDict_loop_keeps n rec dict es h1 h2 m1 s :
  rec_spec n rec →
  h1 !! dict = Some m1 →
  Forall (λ kv, key_String kv.1 ≠ Some s) es →
  NormalizeDict_loop rec dict es h1 = Done () h2 →
  ∃ m2, h2 !! dict = Some m2 ∧ m2 !! s = m1 !! s.
Proof.
  intros Hrec. revert h1 m1.
  induction es as [|[key cv] es IH]; intros h1 m1 Hd Hes Hrun.
  - injection Hrun as <-. eauto.
  - rewrite NormalizeDict_loop_cons in Hrun. apply Forall_cons in Hes as [Hkey Hes].
    simpl in Hkey. destruct (key_String key) as [s'|]; [|by eapply IH].
    destruct (rec cv h1) as [r h'| |] eqn:Hcv; try done.
    destruct (Hrec _ _ _ _ Hcv) as (Hincl & _).
    eapply IH in Hrun as (m2 & Hm2 & Hs); [|by apply dict_set_lookup_eq, Hincl|done].
    exists m2. split; [done|]. rewrite Hs. apply lookup_insert_ne. congruence.
Qed.

(** Entries whose values are not maps allocate nothing. *)
Lemma NormalizeDict_loop_flat n rec dict es h1 h2 :
  rec_spec n rec →
  Forall (λ kv, Kind_is_Map kv.2 = false) es →
  NormalizeDict_loop rec dict es h1 = Done () h2 →
  length h2 = length h1.
Proof.
  intros Hrec. revert h1.
  induction es as [|[key cv] es IH]; intros h1 Hes Hrun.
  - by injection Hrun as <-.
  - rewrite NormalizeDict_loop_cons in Hrun. apply Forall_cons in Hes as [Hcv Hes].
    simpl in Hcv. destruct (key_String key) as [s'|]; [|by eapply IH].
    destruct (rec cv h1) as [r h'| |] eqn:Hrec1; try done.
    destruct (Hrec _ _ _ _ Hrec1) as (_ & Hshape & _). rewrite Hcv in Hshape.
    destruct Hshape as [-> ->]. apply IH in Hrun; [|done].
    by rewrite Hrun, dict_set_length.
Qed.

Hypothesis order_perm : ∀ l, order l ≡ₚ l.

Lemma MapEntries_dict h l m key cv :
  h !! l = Some m →
  (key, cv) ∈ MapEntries order F h (VDict (Some l)) ↔
  ∃ k, key = Plain (KStr "string" k) ∧ m !! k = Some cv.
Proof.
  intros Hm. simpl. unfold deref. rewrite Hm. simpl.
  rewrite list_elem_of_fmap. split.
  - intros ([k x] & [= -> ->] & Hin). rewrite order_perm in Hin.
    apply elem_of_map_to_list in Hin. eauto.
  - intros (k & -> & Hk). exists (k, cv). split; [done|].
    rewrite order_perm. by apply elem_of_map_to_list.
Qed.

(** The dict made from a dict: the same keys; a value that is not a map is
    kept, a value that is a map is replaced by a dict. *)
Lemma NormalizeDict_dict_content n h l m r h' :
  h !! l = Some m →
  NormalizeDict order F n (VDict (Some l)) h = Done r h' →
  ∃ m', r = Some (length h) ∧ h' !! length h = Some m' ∧
    dom m' = dom m ∧
    ∀ k x, m !! k = Some x →
      if Kind_is_Map x then ∃ d, m' !! k = Some (VDict (Some d)) else m' !! k = Some x.
Proof.
  intros Hm Hrun. destruct n as [|n]; [done|].
  rewrite NormalizeDict_map in Hrun by done.
  destruct (NormalizeDict_loop _ _ _ _) as [[] h2| |] eqn:Hloop; try done.
  injection Hrun as <- <-.
  eapply NormalizeDict_loop_content in Hloop as (m' & Hm' & Hdom & Hval);
    [|apply NormalizeDict_spec|by apply list_lookup_middle].
  assert (Hdom' : dom m' = dom m).
  { apply set_eq. intros k.
    rewrite Hdom, dom_empty_L, elem_of_union, elem_of_list_to_set, list_elem_of_omap,
      elem_of_dom.
    split.
    - intros [Hk|(key & Hin & Hkey)]; [by apply not_elem_of_empty in Hk|].
      apply list_elem_of_fmap in Hin as ([key' cv] & -> & Hin).
      apply (MapEntries_dict h l m) in Hin as (k' & -> & Hk'); [|done].
      simpl in Hkey. injection Hkey as <-. by eexists.
    - intros [x Hx]. right. exists (Plain (KStr "string" k)). split; [|done].
      apply list_elem_of_fmap. exists (Plain (KStr "string" k), x). split; [done|].
      apply (MapEntries_dict h l m); eauto. }
  exists m'. split; [done|]. split; [done|]. split; [done|].
  intros k x Hx.
  assert (is_Some (m' !! k)) as [x' Hx'].
  { apply elem_of_dom. rewrite Hdom'. apply elem_of_dom. by eexists. }
  destruct (Hval _ _ Hx') as [Hempty|(key & cv & Hin & Hkey & Hcv)];
    [by rewrite lookup_empty in Hempty|].
  apply (MapEntries_dict h l m) in Hin as (k' & -> & Hk'); [|done].
  simpl in Hkey. injection Hkey as ->. rewrite Hx in Hk'. injection Hk' as <-.
  destruct (Kind_is_Map x).
  - destruct Hcv as (d & -> & _). eauto.
  - by subst x'.
Qed.

End ContentFacts.

(** X9.  When several keys of a map are the same string once unwrapped
    (a [string] and a defined string type under an interface key type), they
    share one key of the new dict, and the entry that the iteration visits
    last is the one that stays. *)
Theorem NormalizeDict_last_key_wins order F n l es1 key cv es2 s h r h' :
  F !! l = Some (es1 ++ (key, cv) :: es2) →
  key_String key = Some s →
  Kind_is_Map cv = false →
  Forall (λ kv, key_String kv.1 ≠ Some s) es2 →
  NormalizeDict order F n (VMap (Some l)) h = Done r h' →
  ∃ m, r = Some (length h) ∧ h' !! length h = Some m ∧ m !! s = Some cv.
Proof.
  intros HF Hkey Hcv Hes2 Hrun. destruct n as [|n]; [done|].
  rewrite NormalizeDict_map in Hrun by done. simpl in Hrun. rewrite HF in Hrun.
  simpl in Hrun. rewrite NormalizeDict_loop_app in Hrun.
  destruct (NormalizeDict_loop _ _ es1 _) as [[] h1| |] eqn:Hloop1; try done.
  eapply NormalizeDict_loop_spec in Hloop1 as (Hlen & _ & m1 & Hm1 & _);
    [|apply NormalizeDict_spec|by apply list_lookup_middle|by apply map_Forall_empty].
  rewrite NormalizeDict_loop_cons, Hkey in Hrun.
  destruct (NormalizeDict order F n cv h1) as [r1 h1'| |] eqn:Hrec; try done.
  destruct (NormalizeDict_spec order F n _ _ _ _ Hrec) as (_ & Hshape & _).
  rewrite Hcv in Hshape. destruct Hshape as [-> ->]. simpl in Hrun.
  destruct (NormalizeDict_loop _ _ es2 _) as [[] h2| |] eqn:Hloop2; try done.
  injection Hrun as <- <-.
  eapply NormalizeDict_loop_keeps in Hloop2 as (m2 & Hm2 & Hs);
    [|apply NormalizeDict_spec|by apply dict_set_lookup_eq|done].
  exists m2. split; [done|]. split; [done|]. by rewrite Hs, lookup_insert_eq.
Qed.

(** In map 0 of [ex_F_clash] the keys "id" of type string and "id" of type
    URI clash: visited in this order the second stays, in the other order the
    first. *)
Lemma NormalizeDict_last_key_wins_witness :
  ∃ h',
    ex_F_clash !! 0 =
      Some ([(Boxed (Some (KStr "string" "id")), VInteger Int 1)] ++
            (Boxed (Some (KStr "URI" "id")), VInteger Int 2) ::
            [(Boxed (Some (KStr "string" "x")), VBool true)]) ∧
    key_String (Boxed (Some (KStr "URI" "id"))) = Some "id" ∧
    Kind_is_Map (VInteger Int 2) = false ∧
    Forall (λ kv : mkey * value, key_String kv.1 ≠ Some "id")
      [(Boxed (Some (KStr "string" "x")), VBool true)] ∧
    NormalizeDict id ex_F_clash 2 (VMap (Some 0)) [] = Done (Some 0) h' ∧
    ∃ m, Some 0 = Some (length (@nil (gmap string value))) ∧
      h' !! length (@nil (gmap string value)) = Some m ∧
      m !! "id" = Some (VInteger Int 2).
Proof.
  eexists.
  assert (Hrun : ∀ r, r = NormalizeDict id ex_F_clash 2 (VMap (Some 0)) [] →
                 NormalizeDict id ex_F_clash 2 (VMap (Some 0)) [] = r) by done.
  specialize (Hrun _ ltac:(vm_compute; reflexivity)).
  assert (Hes2 : Forall (λ kv : mkey * value, key_String kv.1 ≠ Some "id")
                   [(Boxed (Some (KStr "string" "x")), VBool true)])
    by (repeat constructor; done).
  split; [done|]. split; [done|]. split; [done|]. split; [exact Hes2|].
  split; [exact Hrun|].
  exact (NormalizeDict_last_key_wins id ex_F_clash 2 0
           [(Boxed (Some (KStr "string" "id")), VInteger Int 1)]
           (Boxed (Some (KStr "URI" "id"))) (VInteger Int 2)
           [(Boxed (Some (KStr "string" "x")), VBool true)] "id" [] _ _
           eq_refl eq_refl eq_refl Hes2 Hrun).
Defined.

(** X10.  A dict none of whose values is a map normalizes to an exact
    copy: one new dict, holding what the argument holds, and nothing else is
    added to the store. *)
Theorem NormalizeDict_flat_copy order F n h l m :
  (∀ es, order es ≡ₚ es) →
  h !! l = Some m →
  (∀ k x, m !! k = Some x → Kind_is_Map x = false) →
  NormalizeDict order F (S (S n)) (VDict (Some l)) h = Done (Some (length h)) (h ++ [m]).
Proof.
  intros Hperm Hm Hflat.
  assert (Hdepth : depth_le F h (S (S n)) (VDict (Some l)) = true).
  { simpl. rewrite Hm. apply forallb_forall. intros [k x] Hin.
    apply list_elem_of_In, elem_of_map_to_list, Hflat in Hin. simpl.
    by destruct x as [| | | | | |[?|]|[?|]|]. }
  destruct (NormalizeDict_total order F Hperm _ _ h h (heap_incl_refl h) Hdepth)
    as (r & h' & Hrun).
  rewrite Hrun.
  destruct (NormalizeDict_dict_content order F Hperm _ _ _ _ _ _ Hm Hrun)
    as (m' & -> & Hm' & Hdom & Hval).
  destruct (NormalizeDict_spec order F _ _ _ _ _ Hrun) as (Hincl & _ & _).
  assert (m' = m) as ->.
  { apply map_eq. intros k. destruct (m !! k) as [x|] eqn:Hx.
    - specialize (Hval k x Hx). by rewrite (Hflat k x Hx) in Hval.
    - apply not_elem_of_dom. rewrite Hdom. by apply not_elem_of_dom. }
  assert (Hlen : length h' = S (length h)).
  { rewrite NormalizeDict_map in Hrun by done.
    destruct (NormalizeDict_loop _ _ _ _) as [[] h2| |] eqn:Hloop; try done.
    injection Hrun as <-.
    eapply NormalizeDict_loop_flat in Hloop; [|apply NormalizeDict_spec|].
    - rewrite Hloop, length_app. simpl. lia.
    - apply Forall_forall. intros [key cv] Hin.
      apply (MapEntries_dict order F Hperm h l m) in Hin as (k & -> & Hk); [|done].
      simpl. by eapply Hflat. }
  f_equal. apply heap_incl_prefix in Hincl as [tl ->].
  rewrite length_app in Hlen.
  destruct tl as [|m0 [|? ?]]; simpl in Hlen; try lia.
  rewrite list_lookup_middle in Hm' by done. by injection Hm' as ->.
Qed.

Lemma NormalizeDict_flat_copy_witness :
  (∀ es : list (string * value), id es ≡ₚ es) ∧
  ex_h !! 1 = Some {[ "call_timeout" := VBool true; "progressive" := VString "yes" ]} ∧
  NormalizeDict id ex_F 2 (VDict (Some 1)) ex_h =
    Done (Some (length ex_h))
         (ex_h ++ [ {[ "call_timeout" := VBool true; "progressive" := VString "yes" ]} ]).
Proof.
  split; [done|]. split; [done|].
  apply (NormalizeDict_flat_copy id ex_F 0 ex_h 1); [done|done|].
  apply (map_Forall_insert_2 (λ (_ : string) x, Kind_is_Map x = false)); [done|].
  by apply (map_Forall_singleton (λ (_ : string) x, Kind_is_Map x = false)).
Defined.

(** X11.  Normalizing a dict does not change what the option accessors
    read from it: they look at strings, numbers and booleans only, and those
    are carried over as they are. *)
Theorem Option_after_NormalizeDict order F float_oob n h l m d h' name :
  (∀ es, order es ≡ₚ es) →
  h !! l = Some m →
  NormalizeDict order F n (VDict (Some l)) h = Done d h' →
  OptionString h' d name = OptionString h (Some l) name ∧
  OptionInt64 float_oob h' d name = OptionInt64 float_oob h (Some l) name ∧
  OptionFlag h' d name = OptionFlag h (Some l) name.
Proof.
  intros Hperm Hm Hrun.
  destruct (NormalizeDict_dict_content order F Hperm _ _ _ _ _ _ Hm Hrun)
    as (m' & -> & Hm' & Hdom & Hval).
  unfold OptionString, OptionInt64, OptionFlag. simpl. unfold deref. rewrite Hm, Hm'. simpl.
  destruct (m !! name) as [x|] eqn:Hx.
  - specialize (Hval name x Hx).
    destruct (Kind_is_Map x) eqn:Hk.
    + destruct Hval as (d & ->). by destruct x.
    + by rewrite Hval.
  - assert (m' !! name = None) as ->; [|done].
    apply not_elem_of_dom. rewrite Hdom. by apply not_elem_of_dom.
Qed.

Lemma Option_after_NormalizeDict_witness :
  ∃ d h',
    (∀ es : list (string * value), id es ≡ₚ es) ∧
    ex_h !! 0 = Some {[ "roles" := VMap (Some 0); "authid" := VString "alice";
                        "none" := VNil; "nilmap" := VDict None ]} ∧
    NormalizeDict id ex_F 5 (VDict (Some 0)) ex_h = Done d h' ∧
    OptionString h' d "authid" = OptionString ex_h (Some 0) "authid" ∧
    OptionInt64 (λ _, 0%Z) h' d "authid" = OptionInt64 (λ _, 0%Z) ex_h (Some 0) "authid" ∧
    OptionFlag h' d "authid" = OptionFlag ex_h (Some 0) "authid".
Proof.
  eexists _, _.
  assert (Hrun : ∀ r, r = NormalizeDict id ex_F 5 (VDict (Some 0)) ex_h →
                 NormalizeDict id ex_F 5 (VDict (Some 0)) ex_h = r) by done.
  specialize (Hrun _ ltac:(vm_compute; reflexivity)).
  split; [done|]. split; [done|]. split; [exact Hrun|].
  exact (Option_after_NormalizeDict id ex_F (λ _, 0%Z) 5 ex_h 0 _ _ _ "authid"
           ltac:(done) eq_refl Hrun).
Defined.

(** ** Writing an option and reading it back *)

Lemma dict_get_dict_set h l m name val k :
  h !! l = Some m →
  dict_get (dict_set h l name val) (Some l) k = <[name := val]> m !! k.
Proof.
  intros Hm. simpl. unfold deref. by rewrite (dict_set_lookup_eq h l name val m Hm).
Qed.

Lemma SetOption_run dict name val h :
  (∀ l, dict = Some l → l < length h) →
  ∃ d h', SetOption dict name val h = Done (Some d) h' ∧
    dict_get h' (Some d) name = Some val ∧
    ∀ name', name' ≠ name → dict_get h' (Some d) name' = dict_get h dict name'.
Proof.
  intros Halloc. destruct dict as [l|].
  - destruct (lookup_lt_is_Some_2 h l (Halloc l eq_refl)) as [m Hm].
    exists l, (dict_set h l name val). split; [done|].
    split; [by rewrite (dict_get_dict_set h l m), lookup_insert_eq|].
    intros name' Hne. rewrite (dict_get_dict_set h l m) by done.
    rewrite lookup_insert_ne by done. simpl. unfold deref. by rewrite Hm.
  - exists (length h), (dict_set (h ++ [∅]) (length h) name val). split; [done|].
    assert (Hnew : (h ++ [∅]) !! length h = Some (∅ : gmap string value))
      by by apply list_lookup_middle.
    split; [by rewrite (dict_get_dict_set _ _ ∅), lookup_insert_eq|].
    intros name' Hne. rewrite (dict_get_dict_set _ _ ∅) by done.
    by rewrite lookup_insert_ne, lookup_empty.
Qed.

(** X12.  An option written by [SetOption] is what the accessors read back
    from the dict it returns: a string by [OptionString], a boolean by
    [OptionFlag], and an [int], [int32], [uint], [uint32] or [uint64] within
    the range of [int64] by [OptionInt64].  The options under other names read
    as before. *)
Theorem SetOption_then_read float_oob dict name val h :
  (∀ l, dict = Some l → l < length h) →
  ∃ d h', SetOption dict name val h = Done d h' ∧
    (∀ s, val = VString s → OptionString h' d name = s) ∧
    (∀ b, val = VBool b → OptionFlag h' d name = b) ∧
    (∀ k n, val = VInteger k n → converted k = true →
       (- 2 ^ 63 ≤ n < 2 ^ 63)%Z → OptionInt64 float_oob h' d name = n) ∧
    (∀ name', name' ≠ name →
       OptionString h' d name' = OptionString h dict name' ∧
       OptionInt64 float_oob h' d name' = OptionInt64 float_oob h dict name' ∧
       OptionFlag h' d name' = OptionFlag h dict name').
Proof.
  intros Halloc. destruct (SetOption_run dict name val h Halloc) as (d & h' & Hrun & Hget & Hother).
  exists (Some d), h'. split; [done|].
  unfold OptionString, OptionFlag, OptionInt64. rewrite Hget.
  split; [by intros s ->|]. split; [by intros b ->|]. split.
  - intros k n -> Hk Hn. destruct k; try done; by apply int64_of_Z_id.
  - intros name' Hne. by rewrite (Hother name' Hne).
Qed.

Lemma SetOption_then_read_witness :
  (∀ l, (None : option nat) = Some l → l < length ex_h) ∧
  ∃ d h', SetOption None "timeout" (VInteger Uint32 30) ex_h = Done d h' ∧
    (∀ s, VInteger Uint32 30 = VString s → OptionString h' d "timeout" = s) ∧
    (∀ b, VInteger Uint32 30 = VBool b → OptionFlag h' d "timeout" = b) ∧
    (∀ k n, VInteger Uint32 30 = VInteger k n → converted k = true →
       (- 2 ^ 63 ≤ n < 2 ^ 63)%Z → OptionInt64 (λ _, 0%Z) h' d "timeout" = n) ∧
    (∀ name', name' ≠ "timeout" →
       OptionString h' d name' = OptionString ex_h None name' ∧
       OptionInt64 (λ _, 0%Z) h' d name' = OptionInt64 (λ _, 0%Z) ex_h None name' ∧
       OptionFlag h' d name' = OptionFlag ex_h None name').
Proof.
  assert (Halloc : ∀ l, (None : option nat) = Some l → l < length ex_h) by done.
  split; [exact Halloc|].
  exact (SetOption_then_read (λ _, 0%Z) None "timeout" (VInteger Uint32 30) ex_h Halloc).
Defined.

(** X13.  Setting the same option twice leaves what setting it once to the
    second value leaves; setting two different options leaves the same dict
    in either order. *)
Theorem SetOption_twice l m h name1 val1 name2 val2 :
  h !! l = Some m →
  ∃ h1 h2,
    SetOption (Some l) name1 val1 h = Done (Some l) h1 ∧
    SetOption (Some l) name2 val2 h1 = Done (Some l) h2 ∧
    (name1 = name2 → SetOption (Some l) name2 val2 h = Done (Some l) h2) ∧
    (name1 ≠ name2 →
       ∃ h1', SetOption (Some l) name2 val2 h = Done (Some l) h1' ∧
              SetOption (Some l) name1 val1 h1' = Done (Some l) h2).
Proof.
  intros Hm. pose proof (lookup_lt_Some _ _ _ Hm) as Hlt.
  assert (Hset : ∀ name val m0 h0, h0 !! l = Some m0 →
            SetOption (Some l) name val h0 = Done (Some l) (<[l := <[name := val]> m0]> h0)).
  { intros name val m0 h0 Hm0. unfold SetOption, dict_set, deref. by rewrite Hm0. }
  assert (Hat : ∀ (t : gmap string value), (<[l := t]> h) !! l = Some t).
  { intros t. by apply list_lookup_insert_eq. }
  exists (<[l := <[name1 := val1]> m]> h),
         (<[l := <[name2 := val2]> (<[name1 := val1]> m)]> h).
  split; [by apply Hset|]. split.
  { rewrite (Hset name2 val2 _ _ (Hat _)). by rewrite list_insert_insert_eq. }
  split.
  - intros <-. rewrite (Hset name1 val2 m h Hm). by rewrite insert_insert_eq.
  - intros Hne. exists (<[l := <[name2 := val2]> m]> h). split; [by apply Hset|].
    rewrite (Hset name1 val1 _ _ (Hat _)), list_insert_insert_eq.
    by rewrite insert_insert_ne.
Qed.

Lemma SetOption_twice_witness :
  ex_h !! 1 = Some {[ "call_timeout" := VBool true; "progressive" := VString "yes" ]} ∧
  ∃ h1 h2,
    SetOption (Some 1) "a" (VBool true) ex_h = Done (Some 1) h1 ∧
    SetOption (Some 1) "b" (VBool false) h1 = Done (Some 1) h2 ∧
    ("a" = "b" → SetOption (Some 1) "b" (VBool false) ex_h = Done (Some 1) h2) ∧
    ("a" ≠ "b" →
       ∃ h1', SetOption (Some 1) "b" (VBool false) ex_h = Done (Some 1) h1' ∧
              SetOption (Some 1) "a" (VBool true) h1' = Done (Some 1) h2).
Proof.
  split; [done|].
  exact (SetOption_twice 1 _ ex_h "a" (VBool true) "b" (VBool false) eq_refl).
Defined.

(** X14.  The dict that [DictChild] returns for a key that holds a dict is
    the dict the parent holds: an option set in it is found by a lookup that
    starts from the parent. *)
Theorem SetOption_on_child_is_seen order F fuel h l key c name val :
  dict_get h (Some l) key = Some (VDict (Some c)) →
  l ≠ c →
  c < length h →
  DictChild order F fuel (Some l) key h = Done (Some c) h ∧
  ∃ h', SetOption (Some c) name val h = Done (Some c) h' ∧
    DictValue order F fuel (Some l) [key; name] h' = Done (val, None) h'.
Proof.
  intros Hget Hne Hc.
  split; [unfold DictChild; by rewrite Hget|].
  destruct (SetOption_run (Some c) name val h) as (d & h' & Hrun & Hval & _).
  { by intros ? [= <-]. }
  assert (d = c) as -> by (unfold SetOption in Hrun; by injection Hrun as <-).
  exists h'. split; [done|].
  assert (Hget' : dict_get h' (Some l) key = Some (VDict (Some c))).
  { unfold SetOption in Hrun. injection Hrun as <-. simpl in Hget |- *.
    unfold deref in *. by rewrite dict_set_lookup_ne. }
  change [key; name] with ([key] ++ [name]).
  rewrite (DictValue_leaf order F fuel (Some l) h' [key] (Some c) h' name).
  - by rewrite Hval.
  - eapply resolves_cons; [|apply resolves_nil]. unfold DictChild. by rewrite Hget'.
Qed.

Lemma SetOption_on_child_is_seen_witness :
  dict_get ex_parent (Some 0) "features" = Some (VDict (Some 1)) ∧
  0 ≠ 1 ∧
  1 < length ex_parent ∧
  DictChild id [] 1 (Some 0) "features" ex_parent = Done (Some 1) ex_parent ∧
  ∃ h', SetOption (Some 1) "call_timeout" (VBool true) ex_parent = Done (Some 1) h' ∧
    DictValue id [] 1 (Some 0) ["features"; "call_timeout"] h' = Done (VBool true, None) h'.
Proof.
  split; [done|]. split; [done|]. split; [simpl; lia|].
  apply (SetOption_on_child_is_seen id [] 1 ex_parent 0 "features" 1 "call_timeout"
           (VBool true)); [done|done|simpl; lia].
Defined.

(** ** The accessors *)

(** X15.  For the integer types that [OptionInt64] converts, a stored
    number within the range of [int64] is returned as it is, and a stored
    number from 2^63 up (a large [uint64] or [uint]) comes back negative,
    lowered by 2^64. *)
Theorem OptionInt64_converted float_oob h opts name k n :
  dict_get h opts name = Some (VInteger k n) →
  converted k = true →
  ((- 2 ^ 63 ≤ n < 2 ^ 63)%Z → OptionInt64 float_oob h opts name = n) ∧
  ((2 ^ 63 ≤ n < 2 ^ 64)%Z →
     OptionInt64 float_oob h opts name = (n - 2 ^ 64)%Z ∧
     (OptionInt64 float_oob h opts name < 0)%Z).
Proof.
  intros Hget Hk. rewrite OptionInt64_cases, Hget, Hk. split.
  - apply int64_of_Z_id.
  - intros Hn. assert (int64_of_Z n = (n - 2 ^ 64)%Z) as ->; [|lia].
    unfold int64_of_Z.
    replace (n + 2 ^ 63)%Z with ((n - 2 ^ 63) + 1 * 2 ^ 64)%Z by lia.
    rewrite Z.mod_add by lia. rewrite Z.mod_small by lia. lia.
Qed.

Lemma OptionInt64_converted_witness :
  dict_get ex_big (Some 0) "n" = Some (VInteger Uint64 (2 ^ 64 - 1)) ∧
  converted Uint64 = true ∧
  (2 ^ 63 ≤ 2 ^ 64 - 1 < 2 ^ 64)%Z ∧
  OptionInt64 (λ _, 0%Z) ex_big (Some 0) "n" = (2 ^ 64 - 1 - 2 ^ 64)%Z ∧
  (OptionInt64 (λ _, 0%Z) ex_big (Some 0%nat) "n" < 0)%Z.
Proof.
  split; [done|]. split; [done|]. split; [lia|].
  apply (OptionInt64_converted (λ _, 0%Z) ex_big (Some 0) "n" Uint64 (2 ^ 64 - 1));
    [done|done|lia].
Defined.

(** X16.  The lenient accessors agree with the strict lookup on the
    one-segment path: [OptionFlag] is true exactly when [DictFlag] returns
    true without an error, and [OptionString] is a non-empty string exactly
    when [DictValue] finds that string. *)
Theorem Option_agrees_with_lookup order F fuel h opts name :
  (OptionFlag h opts name = true ↔
   DictFlag order F fuel opts [name] h = Done (true, None) h) ∧
  (∀ s, s ≠ "" →
     OptionString h opts name = s ↔
     DictValue order F fuel opts [name] h = Done (VString s, None) h).
Proof.
  pose proof (DictValue_leaf order F fuel opts h [] opts h name
                (resolves_nil _ _ _ _ _)) as Hval.
  simpl in Hval. unfold DictFlag, OptionFlag, OptionString. rewrite Hval.
  destruct (dict_get h opts name) as [v|]; split.
  - destruct v as [|[|]| | | | | | |]; split; done.
  - intros s Hs. split.
    + intros Heq. destruct v; by subst s.
    + by intros [= ->].
  - done.
  - intros s Hs. split; [by intros <-|done].
Qed.

Lemma Option_agrees_with_lookup_witness :
  "alice" ≠ "" ∧
  (OptionFlag ex_h (Some 0) "authid" = true ↔
   DictFlag id ex_F 1 (Some 0) ["authid"] ex_h = Done (true, None) ex_h) ∧
  (OptionString ex_h (Some 0) "authid" = "alice" ↔
   DictValue id ex_F 1 (Some 0) ["authid"] ex_h = Done (VString "alice", None) ex_h).
Proof.
  destruct (Option_agrees_with_lookup id ex_F 1 ex_h (Some 0) "authid") as [Hflag Hstr].
  split; [done|]. split; [exact Hflag|]. by apply Hstr.
Defined.
